(** * Bias directions over a word embedding: the notebook's computations

    A shallow embedding of the analysis cells of [tutorial_example1.ipynb]:

    - the group direction of the "racial direction" cell
      ([vs], [v_racial]: sum, normalise, subtract, normalise);
    - the profession ranking of the "profession analysis" cells
      ([sp = sorted([(E.v(w).dot(v), w) for w in profession_words])]).

    The notebook calls into the [debiaswe] package ([WordEmbedding.v],
    [WordEmbedding.diff], [WordEmbedding.best_analogies_dist_thresh]); that
    package is not part of the analysed sources, so the lookup table, the
    pair direction and the analogy finder are modelled from the
    specification and are marked as such.

    Numbers.  A number is a real, an infinity or nan; every value of a
    floating-point number is one of these (the two zeros are one number).
    The development has two layers.

    - In the first, arithmetic is exact: numpy's operations are taken
      without rounding, overflow or underflow ([num_add], [inner], [norm],
      ...).  What is proved there about values -- a norm of one, an
      invariance under scaling -- is a statement about exact arithmetic;
      numpy's floats satisfy it up to rounding only, and not at all where
      they overflow or underflow.  What this layer keeps of IEEE arithmetic
      is what the notebook's control flow can observe: a division by a zero
      magnitude does not raise, it yields an infinity or nan, and nan
      compares unequal to everything.
    - In the second, the arithmetic is a parameter ([arithmetic]): the
      cells are written over arbitrary operations [+], [-], [/], [dot] and
      [norm], and what is proved holds however these round.  The order of a
      ranking, the errors, and the symmetry of the group direction are
      stated there, under hypotheses on the scores that the arithmetic
      itself produces. *)

From Stdlib Require Import Reals Lra Lia String Ascii Bool Arith List.
From Stdlib Require Import Permutation Sorted.
From Stdlib Require OrderedTypeEx.
Import ListNotations.

Open Scope R_scope.

(** ** Numbers *)

Inductive num : Type :=
| Fin (x : R)          (* a finite number *)
| Inf (neg : bool)     (* +inf ([false]) or -inf ([true]) *)
| NaN.

Definition Req_b (x y : R) : bool := if Req_EM_T x y then true else false.
Definition Rlt_b (x y : R) : bool := if Rlt_dec x y then true else false.

(** Sign bit of a real; zero counts as positive. *)
Definition signbit (x : R) : bool := Rlt_b x 0.

Definition num_add (a b : num) : num :=
  match a, b with
  | Fin x, Fin y => Fin (x + y)
  | Fin _, Inf s => Inf s
  | Inf s, Fin _ => Inf s
  | Inf s, Inf t => if Bool.eqb s t then Inf s else NaN
  | _, _ => NaN
  end.

Definition num_neg (a : num) : num :=
  match a with
  | Fin x => Fin (- x)
  | Inf s => Inf (negb s)
  | NaN => NaN
  end.

Definition num_sub (a b : num) : num :=
  match a, b with
  | Fin x, Fin y => Fin (x - y)
  | Fin _, Inf s => Inf (negb s)
  | Inf s, Fin _ => Inf s
  | Inf s, Inf t => if Bool.eqb s t then NaN else Inf s
  | _, _ => NaN
  end.

Definition num_mul (a b : num) : num :=
  match a, b with
  | Fin x, Fin y => Fin (x * y)
  | Fin x, Inf s => if Req_b x 0 then NaN else Inf (xorb (signbit x) s)
  | Inf s, Fin y => if Req_b y 0 then NaN else Inf (xorb s (signbit y))
  | Inf s, Inf t => Inf (xorb s t)
  | _, _ => NaN
  end.

(** [x / 0] is nan for [x = 0] and an infinity of the sign of [x]
    otherwise: numpy warns and goes on, it does not raise. *)
Definition num_div (a b : num) : num :=
  match a, b with
  | Fin x, Fin y =>
      if Req_b y 0
      then (if Req_b x 0 then NaN else Inf (signbit x))
      else Fin (x / y)
  | Fin _, Inf _ => Fin 0
  | Inf s, Fin y => Inf (xorb s (signbit y))
  | _, _ => NaN
  end.

Definition num_sqrt (a : num) : num :=
  match a with
  | Fin x => if Rlt_b x 0 then NaN else Fin (sqrt x)
  | Inf false => Inf false
  | _ => NaN
  end.

(** [==] and [<] of floats: every comparison with nan is false. *)
Definition num_eqb (a b : num) : bool :=
  match a, b with
  | Fin x, Fin y => Req_b x y
  | Inf s, Inf t => Bool.eqb s t
  | _, _ => false
  end.

Definition num_ltb (a b : num) : bool :=
  match a, b with
  | Fin x, Fin y => Rlt_b x y
  | Fin _, Inf s => negb s
  | Inf s, Fin _ => s
  | Inf s, Inf t => s && negb t
  | _, _ => false
  end.

Definition is_finite (a : num) : Prop :=
  match a with Fin _ => True | _ => False end.

(** ** Arrays *)

(** A one-dimensional array. *)
Definition vec : Type := list num.

(** The rows of one matrix share their length, so the pairing below never
    drops an entry when it combines two rows of the table. *)
Fixpoint zip_with {A B C : Type} (f : A -> B -> C) (u : list A) (v : list B)
  : list C :=
  match u, v with
  | x :: u', y :: v' => f x y :: zip_with f u' v'
  | _, _ => []
  end.

(** What a name of the notebook can hold: an array, or a scalar (the [0]
    that [sum] starts from, a norm). *)
Inductive ndarray : Type :=
| Arr (v : vec)
| Scalar (x : num).

(** Elementwise operation with numpy's broadcasting of a scalar. *)
Definition broadcast (f : num -> num -> num) (a b : ndarray) : ndarray :=
  match a, b with
  | Arr u, Arr v => Arr (zip_with f u v)
  | Arr u, Scalar y => Arr (map (fun x => f x y) u)
  | Scalar x, Arr v => Arr (map (f x) v)
  | Scalar x, Scalar y => Scalar (f x y)
  end.

Definition np_add : ndarray -> ndarray -> ndarray := broadcast num_add.
Definition np_sub : ndarray -> ndarray -> ndarray := broadcast num_sub.
Definition np_div : ndarray -> ndarray -> ndarray := broadcast num_div.

Definition np_neg (a : ndarray) : ndarray :=
  match a with
  | Arr v => Arr (map num_neg v)
  | Scalar x => Scalar (num_neg x)
  end.

(** Sum of the products of paired entries, in exact arithmetic. *)
Fixpoint inner (u v : vec) : num :=
  match u, v with
  | x :: u', y :: v' => num_add (num_mul x y) (inner u' v')
  | _, _ => Fin 0
  end.

Definition ravel (a : ndarray) : vec :=
  match a with
  | Arr v => v
  | Scalar x => [x]
  end.

(** [np.linalg.norm(a)] in exact arithmetic: the square root of the
    array's product with itself. *)
Definition norm (a : ndarray) : num :=
  num_sqrt (inner (ravel a) (ravel a)).

(** [a / np.linalg.norm(a)] in exact arithmetic. *)
Definition normalize (a : ndarray) : ndarray :=
  np_div a (Scalar (norm a)).

(** ** Errors *)

(** The error kinds of the specification.  The notebook's cells raise
    nothing themselves: a lookup of an absent word fails inside the table,
    and numpy refuses a product of arrays of different lengths. *)
Inductive error : Type :=
| UnknownWordError (w : string)
| IndexOutOfRangeError (i : nat)
| EmptyGroupError
| DimensionMismatchError.

Inductive result (A : Type) : Type :=
| Ok (a : A)
| Raise (e : error).

Arguments Ok {A} a.
Arguments Raise {A} e.

Definition bind {A B : Type} (m : result A) (k : A -> result B) : result B :=
  match m with
  | Ok a => k a
  | Raise e => Raise e
  end.

Notation "x <- m ;; k" := (bind m (fun x => k))
  (at level 61, m at next level, right associativity).

(** ** The lookup table *)

(** Modelled from the spec: the table of the [debiaswe] package
    ([WordEmbedding]), whose source is not among the analysed files.  A
    vocabulary is an ordered sequence of words, the matrix has one row of
    finite numbers per word, aligned by index. *)
Record WordEmbedding : Type := {
  words : list string;
  vecs : list (list R)
}.

(** The invariants the specification states for the data model: the words
    are distinct, there is one row per word, every row has dimension [D]. *)
Definition wf_table (D : nat) (E : WordEmbedding) : Prop :=
  NoDup (words E) /\
  length (vecs E) = length (words E) /\
  Forall (fun row => length row = D) (vecs E).

Definition size (E : WordEmbedding) : nat := length (words E).

Fixpoint position (w : string) (ws : list string) : option nat :=
  match ws with
  | [] => None
  | x :: ws' => if String.eqb x w then Some O else option_map S (position w ws')
  end.

(** Modelled from the spec: [index_of], the word-to-index direction. *)
Definition index_of (E : WordEmbedding) (w : string) : result nat :=
  match position w (words E) with
  | Some i => Ok i
  | None => Raise (UnknownWordError w)
  end.

(** Modelled from the spec: [word_at], the index-to-word direction. *)
Definition word_at (E : WordEmbedding) (i : nat) : result string :=
  match nth_error (words E) i with
  | Some w => Ok w
  | None => Raise (IndexOutOfRangeError i)
  end.

(** Modelled from the spec: [vector_of], which the notebook calls [E.v(w)]. *)
Definition vector_of (E : WordEmbedding) (w : string) : result vec :=
  i <- index_of E w ;;
  match nth_error (vecs E) i with
  | Some row => Ok (map Fin row)
  | None => Raise (IndexOutOfRangeError i)
  end.

(** ** The group direction ([v_racial]) *)

(** [sum(E.v(w) for w in names)]: Python's [sum] starts from the integer
    [0] and adds the vectors from left to right, looking each word up as
    the generator reaches it. *)
Fixpoint sum_from (E : WordEmbedding) (names : list string) (acc : ndarray)
  : result ndarray :=
  match names with
  | [] => Ok acc
  | w :: names' =>
      x <- vector_of E w ;;
      sum_from E names' (np_add acc (Arr x))
  end.

Definition py_sum (E : WordEmbedding) (names : list string) : result ndarray :=
  sum_from E names (Scalar (Fin 0)).

(** The value of [vs[1] - vs[0]] after
<<
  vs = [sum(E.v(w) for w in names) for names in (names_group2, names_group1)]
  vs = [v / np.linalg.norm(v) for v in vs]
>>
    The second group is summed first. *)
Definition centroid_diff (E : WordEmbedding) (names_group1 names_group2 : list string)
  : result ndarray :=
  s0 <- py_sum E names_group2 ;;
  s1 <- py_sum E names_group1 ;;
  let vs0 := normalize s0 in
  let vs1 := normalize s1 in
  Ok (np_sub vs1 vs0).

(** The final value of [v_racial]:
<<
  v_racial = vs[1] - vs[0]
  v_racial = v_racial / np.linalg.norm(v_racial)
>>
    This is the specification's [from_groups(group_pos, group_neg)] with
    [names_group1] as the positive and [names_group2] as the negative group. *)
Definition v_racial (E : WordEmbedding) (names_group1 names_group2 : list string)
  : result ndarray :=
  d <- centroid_diff E names_group1 names_group2 ;;
  Ok (normalize d).

(** ** The ranking ([sp]) *)

(** [x.dot(y)] of two one-dimensional arrays. *)
Definition np_dot (x y : vec) : result num :=
  if Nat.eqb (length x) (length y) then Ok (inner x y)
  else Raise DimensionMismatchError.

(** [(s1, w1) < (s2, w2)] on tuples: the first components that are not
    [==] decide. *)
Definition tuple_ltb (a b : num * string) : bool :=
  if negb (num_eqb (fst a) (fst b)) then num_ltb (fst a) (fst b)
  else if negb (String.eqb (snd a) (snd b)) then String.ltb (snd a) (snd b)
  else false.

(** [sorted] is stable and compares with [<] only.  On keys that [<]
    orders (tuples none of whose scores is nan) every stable sort returns
    the same list, and insertion from the right stands for Python's; so
    it does when every score is nan, where no tuple is below another and
    the list stays as it is.  On a list that mixes nan with numbers the
    result of a sort depends on the comparisons it makes, and all that is
    used of [sorted] there is that it returns a permutation. *)
Fixpoint insert (x : num * string) (l : list (num * string))
  : list (num * string) :=
  match l with
  | [] => [x]
  | y :: l' => if tuple_ltb y x then y :: insert x l' else x :: l
  end.

Definition sorted (l : list (num * string)) : list (num * string) :=
  fold_right insert [] l.

(** [[(E.v(w).dot(v), w) for w in profession_words]] *)
Fixpoint scored (E : WordEmbedding) (v : vec) (profession_words : list string)
  : result (list (num * string)) :=
  match profession_words with
  | [] => Ok []
  | w :: rest =>
      x <- vector_of E w ;;
      s <- np_dot x v ;;
      tl <- scored E v rest ;;
      Ok ((s, w) :: tl)
  end.

(** [sp = sorted([(E.v(w).dot(v), w) for w in profession_words])], the
    specification's [rank_by_projection(direction, candidate_words)]. *)
Definition sp (E : WordEmbedding) (v : vec) (profession_words : list string)
  : result (list (num * string)) :=
  l <- scored E v profession_words ;;
  Ok (sorted l).

(** ** The pair direction *)

Inductive pair_mode : Type := Unnormalized | Normalized.

(** Modelled from the spec: [from_pair], which the notebook reaches through
    [E.diff(word_pos, word_neg)] of the absent package.  The difference of
    the two vectors, as it is or divided by its norm. *)
Definition from_pair (E : WordEmbedding) (mode : pair_mode)
  (word_pos word_neg : string) : result ndarray :=
  a <- vector_of E word_pos ;;
  b <- vector_of E word_neg ;;
  let d := np_sub (Arr a) (Arr b) in
  match mode with
  | Unnormalized => Ok d
  | Normalized => Ok (normalize d)
  end.

(** ** The analogy finder *)

(** Modelled from the spec: [AnalogyFinder], which the notebook reaches
    through [E.best_analogies_dist_thresh(v)] of the absent package.  The
    definitions follow the six steps of the specification's algorithm;
    pairs are kept as pairs of vocabulary indices until the end. *)

Definition num_abs (a : num) : num :=
  match a with
  | Fin x => Fin (Rabs x)
  | Inf _ => Inf false
  | NaN => NaN
  end.

Definition cosine_similarity (x y : vec) : num :=
  num_div (inner x y) (num_mul (norm (Arr x)) (norm (Arr y))).

Definition dimension (E : WordEmbedding) : nat :=
  match vecs E with
  | [] => O
  | r :: _ => length r
  end.

Definition vector_at (E : WordEmbedding) (i : nat) : vec :=
  map Fin (nth i (vecs E) []).

(** Step 1: the [K] most frequent words, by index. *)
Definition candidate_pool (E : WordEmbedding) (K : nat) : list nat :=
  seq 0 (Nat.min K (size E)).

(** Step 2: the pairs of two different words of the pool and their
    difference vectors. *)
Definition candidate_pairs (pool : list nat) : list (nat * nat) :=
  flat_map (fun a => map (pair a) (filter (fun b => negb (Nat.eqb a b)) pool)) pool.

Definition diff_of (E : WordEmbedding) (p : nat * nat) : vec :=
  zip_with num_sub (vector_at E (fst p)) (vector_at E (snd p)).

(** Step 3 *)
Definition cos_sim (E : WordEmbedding) (reference : vec) (p : nat * nat) : num :=
  cosine_similarity (diff_of E p) reference.

Definition magnitude_gap (E : WordEmbedding) (reference : vec) (p : nat * nat) : num :=
  num_abs (num_sub (norm (Arr (diff_of E p))) (norm (Arr reference))).

(** Step 4 *)
Definition accept (E : WordEmbedding) (reference : vec)
  (sim_thresh dist_thresh : num) (p : nat * nat) : bool :=
  num_ltb sim_thresh (cos_sim E reference p)
  && num_ltb (magnitude_gap E reference p) dist_thresh.

(** Step 5: orient a pair along the reference direction, and keep one
    entry per unordered pair. *)
Definition orient (E : WordEmbedding) (reference : vec) (p : nat * nat) : nat * nat :=
  if num_ltb (cos_sim E reference p) (Fin 0) then (snd p, fst p) else p.

Definition same_pair (p q : nat * nat) : bool :=
  (Nat.eqb (fst p) (fst q) && Nat.eqb (snd p) (snd q))
  || (Nat.eqb (fst p) (snd q) && Nat.eqb (snd p) (fst q)).

Fixpoint dedup (l : list (nat * nat)) : list (nat * nat) :=
  match l with
  | [] => []
  | p :: l' => p :: filter (fun q => negb (same_pair p q)) (dedup l')
  end.

(** Step 6: descending similarity, then ascending gap. *)
Definition more_confident (E : WordEmbedding) (reference : vec)
  (p q : nat * nat) : bool :=
  num_ltb (cos_sim E reference q) (cos_sim E reference p)
  || (num_eqb (cos_sim E reference p) (cos_sim E reference q)
      && num_ltb (magnitude_gap E reference p) (magnitude_gap E reference q)).

Fixpoint insert_pair (E : WordEmbedding) (reference : vec)
  (x : nat * nat) (l : list (nat * nat)) : list (nat * nat) :=
  match l with
  | [] => [x]
  | y :: l' =>
      if more_confident E reference x y then x :: l
      else y :: insert_pair E reference x l'
  end.

Definition sort_pairs (E : WordEmbedding) (reference : vec)
  (l : list (nat * nat)) : list (nat * nat) :=
  fold_right (insert_pair E reference) [] l.

(** An [AnalogyPair]: [(word_a, word_b, vector_diff)]. *)
Definition AnalogyPair : Type := (string * string * vec)%type.

Definition word_a (t : AnalogyPair) : string := fst (fst t).
Definition word_b (t : AnalogyPair) : string := snd (fst t).

Definition analogy_pair (E : WordEmbedding) (p : nat * nat) : AnalogyPair :=
  (nth (fst p) (words E) EmptyString, nth (snd p) (words E) EmptyString, diff_of E p).

Definition selected_pairs (E : WordEmbedding) (reference : vec) (K : nat)
  (sim_thresh dist_thresh : num) : list (nat * nat) :=
  sort_pairs E reference
    (dedup
       (map (orient E reference)
          (filter (accept E reference sim_thresh dist_thresh)
             (candidate_pairs (candidate_pool E K))))).

Definition AnalogyFinder (E : WordEmbedding) (reference : vec) (K : nat)
  (sim_thresh dist_thresh : num) : result (list AnalogyPair) :=
  if Nat.eqb (length reference) (dimension E)
  then Ok (map (analogy_pair E) (selected_pairs E reference K sim_thresh dist_thresh))
  else Raise DimensionMismatchError.

(** ** The same computations on real vectors *)

(** The specification's wording of [from_groups], on vectors of reals:
    sum the members, scale each sum to unit length, subtract, scale the
    difference to unit length. *)
Module Spec.

Definition vadd (u v : list R) : list R := zip_with Rplus u v.
Definition vsub (u v : list R) : list R := zip_with Rminus u v.

Fixpoint dot (u v : list R) : R :=
  match u, v with
  | x :: u', y :: v' => x * y + dot u' v'
  | _, _ => 0
  end.

Definition magnitude (v : list R) : R := sqrt (dot v v).

Definition unit (v : list R) : list R := map (fun x => x / magnitude v) v.

(** Sum of a non-empty group of vectors. *)
Definition vsum (vs : list (list R)) : list R :=
  match vs with
  | [] => []
  | v :: vs' => fold_left vadd vs' v
  end.

Definition from_groups (group_pos group_neg : list (list R)) : list R :=
  unit (vsub (unit (vsum group_pos)) (unit (vsum group_neg))).

End Spec.

(** The rows of a list of words, when all of them are in the vocabulary. *)
Fixpoint rows_of (E : WordEmbedding) (names : list string)
  : option (list (list R)) :=
  match names with
  | [] => Some []
  | w :: names' =>
      match position w (words E), rows_of E names' with
      | Some i, Some rs =>
          match nth_error (vecs E) i with
          | Some row => Some (row :: rs)
          | None => None
          end
      | _, _ => None
      end
  end.

(** [s1 <= s2] on floats. *)
Definition num_leb (a b : num) : bool := num_ltb a b || num_eqb a b.

Definition finite_score (p : num * string) : Prop := is_finite (fst p).

(** The row of a word (no entries for a word outside the vocabulary). *)
Definition row (E : WordEmbedding) (w : string) : list R :=
  match position w (words E) with
  | Some i => nth i (vecs E) []
  | None => []
  end.

Definition rows (E : WordEmbedding) (names : list string) : list (list R) :=
  map (row E) names.

Definition in_vocabulary (E : WordEmbedding) (names : list string) : Prop :=
  Forall (fun w => In w (words E)) names.

(** ** The direction on rows *)

(** What [sum] returns for a group whose rows are [rs]: the integer [0]
    for no row at all, the vector sum otherwise. *)
Definition group_sum (rs : list (list R)) : ndarray :=
  match rs with
  | [] => Scalar (Fin 0)
  | _ :: _ => Arr (map Fin (Spec.vsum rs))
  end.

(** The direction as a function of the two groups' rows. *)
Definition direction (P N : list (list R)) : ndarray :=
  normalize (np_sub (normalize (group_sum P)) (normalize (group_sum N))).

(** ** Scaling the vectors of a group *)

(** [c * x], entry by entry. *)
Definition np_scale (c : R) (x : vec) : vec := map (num_mul (Fin c)) x.




(** ** The scenario of the specification *)

Definition scenario : WordEmbedding := {|
  words := ["he"; "she"; "king"; "queen"]%string;
  vecs := [[1; 0]; [0; 1]; [1; 1]; [0; 2]]
|}.


(** ** The two name groups *)

(** [l[i]] for an index that is not negative: past the end of the list
    Python raises [IndexError]. *)
Definition py_index {A : Type} (l : list A) (i : nat) : result A :=
  match nth_error l i with
  | Some x => Ok x
  | None => Raise (IndexOutOfRangeError i)
  end.

(** [[f(i) for i in l]] *)
Fixpoint comprehension {A B : Type} (f : A -> result B) (l : list A)
  : result (list B) :=
  match l with
  | [] => Ok []
  | i :: l' =>
      x <- f i ;;
      xs <- comprehension f l' ;;
      Ok (x :: xs)
  end.

(** [names_group1 = [names[2 * i] for i in range(len(names) // 2)]] *)
Definition names_group1 (names : list string) : result (list string) :=
  comprehension (fun i => py_index names (2 * i)%nat)
    (seq 0 (Nat.div (length names) 2)).

(** [names_group2 = [names[2 * i + 1] for i in range(len(names) // 2)]] *)
Definition names_group2 (names : list string) : result (list string) :=
  comprehension (fun i => py_index names (2 * i + 1)%nat)
    (seq 0 (Nat.div (length names) 2)).

(** The names of the notebook. *)
Definition names : list string :=
  ["Emily"; "Aisha"; "Anne"; "Keisha"; "Jill"; "Tamika"; "Allison";
   "Lakisha"; "Laurie"; "Tanisha"; "Sarah"; "Latoya"; "Meredith"; "Kenya";
   "Carrie"; "Latonya"; "Kristen"; "Ebony"; "Todd"; "Rasheed"; "Neil";
   "Tremayne"; "Geoffrey"; "Kareem"; "Brett"; "Darnell"; "Brendan";
   "Tyrone"; "Greg"; "Hakim"; "Matthew"; "Jamal"; "Jay"; "Leroy"; "Brad";
   "Jermaine"]%string.

(** Every other element, from the first and from the second; an element
    without a partner at the end is left out. *)
Fixpoint evens {A : Type} (l : list A) : list A :=
  match l with
  | a :: _ :: l' => a :: evens l'
  | _ => []
  end.

Fixpoint odds {A : Type} (l : list A) : list A :=
  match l with
  | _ :: b :: l' => b :: odds l'
  | _ => []
  end.

Fixpoint interleave {A : Type} (u v : list A) : list A :=
  match u, v with
  | a :: u', b :: v' => a :: b :: interleave u' v'
  | _, _ => []
  end.

(** Whether the words of a list are distinct. *)
Fixpoint distinctb (l : list string) : bool :=
  match l with
  | [] => true
  | x :: l' => negb (existsb (String.eqb x) l') && distinctb l'
  end.

(** ** The poles of a ranking *)

(** [l[0:n]] *)
Definition slice_first {A : Type} (n : nat) (l : list A) : list A :=
  firstn n l.

(** [l[-n:]] for a positive [n]: the start [len(l) - n] is clamped at the
    beginning of the list. *)
Definition slice_last {A : Type} (n : nat) (l : list A) : list A :=
  skipn (length l - n) l.

(** [sp[0:20], sp[-20:]] *)
Definition poles (ranking : list (num * string))
  : list (num * string) * list (num * string) :=
  (slice_first 20 ranking, slice_last 20 ranking).

(** ** Unknown words *)

Definition known (E : WordEmbedding) (w : string) : bool :=
  match position w (words E) with
  | Some _ => true
  | None => false
  end.

(** The first word of a list that the table does not have. *)
Definition first_unknown (E : WordEmbedding) (l : list string) : option string :=
  find (fun w => negb (known E w)) l.

(** [[(E.v(w).dot(v), w) for w in candidates]] when every candidate has a
    row and the direction has the rows' length. *)
Definition projections (E : WordEmbedding) (v : vec) (candidates : list string)
  : list (num * string) :=
  map (fun w => (inner (map Fin (row E w)) v, w)) candidates.

(** An entry of a ranking with its score multiplied by [c]. *)
Definition scale_score (c : R) (p : num * string) : num * string :=
  (num_mul (Fin c) (fst p), snd p).

(** An entry of [vs] after its second assignment: the sum of a group
    divided by its norm. *)
Definition unit_centroid (E : WordEmbedding) (group : list string)
  : result ndarray :=
  s <- py_sum E group ;;
  Ok (normalize s).

(** The two cells in a row: the groups are taken from [names], then the
    direction from the groups. *)
Definition racial_direction (E : WordEmbedding) (l : list string)
  : result ndarray :=
  g1 <- names_group1 l ;;
  g2 <- names_group2 l ;;
  v_racial E g1 g2.

(** What the group direction can be: an array of numbers, an array of
    nan, or the scalar nan. *)
Definition settled (a : ndarray) : Prop :=
  (exists v : list R, a = Arr (map Fin v)) \/
  (exists n : nat, a = Arr (repeat NaN n)) \/
  a = Scalar NaN.

(** ** The cells in an arbitrary arithmetic *)

(** numpy's operations on numbers, as the cells use them: [+], [-] and
    [/] on entries, [x.dot(y)] on two arrays of one length, and
    [np.linalg.norm] on the entries of an array.  Nothing is assumed of
    them here: a floating-point arithmetic with its rounding is one
    instance, the exact arithmetic of the sections above another. *)
Record arithmetic : Type := {
  fl_add : num -> num -> num;
  fl_sub : num -> num -> num;
  fl_div : num -> num -> num;
  fl_dot : vec -> vec -> num;
  fl_norm : vec -> num
}.

(** The arithmetic without rounding. *)
Definition exact : arithmetic := {|
  fl_add := num_add;
  fl_sub := num_sub;
  fl_div := num_div;
  fl_dot := inner;
  fl_norm := fun v => num_sqrt (inner v v)
|}.

Section Cells.

Variable fl : arithmetic.

(** [a / np.linalg.norm(a)] *)
Definition normalize_in (a : ndarray) : ndarray :=
  broadcast (fl_div fl) a (Scalar (fl_norm fl (ravel a))).

(** [sum(E.v(w) for w in names)], from the integer [0], left to right. *)
Fixpoint sum_from_in (E : WordEmbedding) (names : list string) (acc : ndarray)
  : result ndarray :=
  match names with
  | [] => Ok acc
  | w :: names' =>
      x <- vector_of E w ;;
      sum_from_in E names' (broadcast (fl_add fl) acc (Arr x))
  end.

Definition py_sum_in (E : WordEmbedding) (names : list string) : result ndarray :=
  sum_from_in E names (Scalar (Fin 0)).

(** [vs[1] - vs[0]]; the second group is summed first. *)
Definition centroid_diff_in (E : WordEmbedding)
  (names_group1 names_group2 : list string) : result ndarray :=
  s0 <- py_sum_in E names_group2 ;;
  s1 <- py_sum_in E names_group1 ;;
  let vs0 := normalize_in s0 in
  let vs1 := normalize_in s1 in
  Ok (broadcast (fl_sub fl) vs1 vs0).

(** The final value of [v_racial]. *)
Definition v_racial_in (E : WordEmbedding)
  (names_group1 names_group2 : list string) : result ndarray :=
  d <- centroid_diff_in E names_group1 names_group2 ;;
  Ok (normalize_in d).

(** [x.dot(y)]: numpy refuses arrays of different lengths. *)
Definition np_dot_in (x y : vec) : result num :=
  if Nat.eqb (length x) (length y) then Ok (fl_dot fl x y)
  else Raise DimensionMismatchError.

(** [[(E.v(w).dot(v), w) for w in profession_words]] *)
Fixpoint scored_in (E : WordEmbedding) (v : vec) (profession_words : list string)
  : result (list (num * string)) :=
  match profession_words with
  | [] => Ok []
  | w :: rest =>
      x <- vector_of E w ;;
      s <- np_dot_in x v ;;
      tl <- scored_in E v rest ;;
      Ok ((s, w) :: tl)
  end.

(** [sp = sorted([(E.v(w).dot(v), w) for w in profession_words])] *)
Definition sp_in (E : WordEmbedding) (v : vec) (profession_words : list string)
  : result (list (num * string)) :=
  l <- scored_in E v profession_words ;;
  Ok (sorted l).

(** What [sum] returns for a group whose rows are [rs]. *)
Definition group_sum_in (rs : list (list R)) : ndarray :=
  fold_left (fun acc r => broadcast (fl_add fl) acc (Arr (map Fin r))) rs
    (Scalar (Fin 0)).

(** The specification's wording of [from_groups], on the rows of the two
    groups: sum the members of each group, divide each sum by its norm,
    subtract the negative group's from the positive group's, divide the
    difference by its norm. *)
Definition from_groups_in (group_pos group_neg : list (list R)) : ndarray :=
  normalize_in
    (broadcast (fl_sub fl)
       (normalize_in (group_sum_in group_pos))
       (normalize_in (group_sum_in group_neg))).

(** The pairs of each candidate's product with the direction and the
    candidate, in the order of the candidates. *)
Definition projections_in (E : WordEmbedding) (v : vec) (candidates : list string)
  : list (num * string) :=
  map (fun w => (fl_dot fl (map Fin (row E w)) v, w)) candidates.

End Cells.

(** What a floating-point arithmetic that rounds to nearest keeps of the
    symmetry of the reals: rounding commutes with the change of sign, so
    [b - a] is [-(a - b)], [(-a) / n] is [-(a / n)], and the norm of an
    array is the norm of its negation. *)
Definition sign_symmetric (fl : arithmetic) : Prop :=
  (forall a b, fl_sub fl b a = num_neg (fl_sub fl a b)) /\
  (forall a n, fl_div fl (num_neg a) n = num_neg (fl_div fl a n)) /\
  (forall v, fl_norm fl (map num_neg v) = fl_norm fl v).

(** In the same way the product with the negated direction is the negated
    product. *)
Definition odd_dot (fl : arithmetic) : Prop :=
  forall x v, fl_dot fl x (map num_neg v) = num_neg (fl_dot fl x v).

(** A number, as opposed to nan. *)
Definition is_number (a : num) : Prop :=
  match a with NaN => False | _ => True end.

Definition number_score (p : num * string) : Prop := is_number (fst p).

(** The order of tuples [(score, word)] whose scores are numbers, the
    infinities included: by score, and by word among equal scores. *)
Definition tuple_order (a b : num * string) : Prop :=
  num_ltb (fst a) (fst b) = true \/
  (fst a = fst b /\ String.leb (snd a) (snd b) = true).

(** [(a == b).all()] for two arrays of one shape. *)
Definition all_equal (a b : ndarray) : bool :=
  match a, b with
  | Arr u, Arr v =>
      Nat.eqb (length u) (length v) && forallb (fun b => b) (zip_with num_eqb u v)
  | Scalar x, Scalar y => num_eqb x y
  | _, _ => false
  end.

(** [(a != 0).any()]: the array is not the zero array. *)
Definition any_nonzero (a : ndarray) : bool :=
  existsb (fun x => negb (num_eqb x (Fin 0))) (ravel a).

(** A table with two opposite words. *)
Definition up_down : WordEmbedding := {|
  words := ["up"; "down"; "he"]%string;
  vecs := [[0; 1]; [0; -1]; [1; 0]]
|}.



(** A table of two words, for the analogy finder. *)
Definition he_she : WordEmbedding := {|
  words := ["he"; "she"]%string;
  vecs := [[1; 0]; [0; 1]]
|}.

(** * Proofs *)

Arguments np_add : simpl never.
Arguments np_sub : simpl never.
Arguments np_div : simpl never.
Arguments norm : simpl never.
Arguments normalize : simpl never.

(** ** Deciding comparisons of reals *)

Lemma Req_b_true (x y : R) : x = y -> Req_b x y = true.
Proof. intros H. unfold Req_b. destruct (Req_EM_T x y); congruence. Qed.

Lemma Req_b_false (x y : R) : x <> y -> Req_b x y = false.
Proof. intros H. unfold Req_b. destruct (Req_EM_T x y); congruence. Qed.

Lemma Rlt_b_true (x y : R) : x < y -> Rlt_b x y = true.
Proof. intros H. unfold Rlt_b. destruct (Rlt_dec x y); tauto. Qed.

Lemma Rlt_b_false (x y : R) : ~ x < y -> Rlt_b x y = false.
Proof. intros H. unfold Rlt_b. destruct (Rlt_dec x y); tauto. Qed.

Lemma Req_b_spec (x y : R) : reflect (x = y) (Req_b x y).
Proof. unfold Req_b. destruct (Req_EM_T x y); constructor; assumption. Qed.

Lemma Rlt_b_spec (x y : R) : reflect (x < y) (Rlt_b x y).
Proof. unfold Rlt_b. destruct (Rlt_dec x y); constructor; assumption. Qed.

(** Settles the comparisons of closed real expressions in the goal. *)
Ltac R_decide :=
  repeat match goal with
    | |- context [Req_b ?x ?y] =>
        first [ rewrite (Req_b_true x y) by lra
              | rewrite (Req_b_false x y) by lra ]
    | |- context [Rlt_b ?x ?y] =>
        first [ rewrite (Rlt_b_true x y) by lra
              | rewrite (Rlt_b_false x y) by lra ]
    end.

(** ** Finite arrays compute as real vectors *)

Lemma zip_with_map_Fin (f : num -> num -> num) (g : R -> R -> R) :
  (forall x y, f (Fin x) (Fin y) = Fin (g x y)) ->
  forall u v, zip_with f (map Fin u) (map Fin v) = map Fin (zip_with g u v).
Proof.
  intros Hfg u. induction u as [|x u IH]; intros [|y v]; simpl; trivial.
  rewrite Hfg, IH. reflexivity.
Qed.

Lemma np_add_fin (u v : list R) :
  np_add (Arr (map Fin u)) (Arr (map Fin v)) = Arr (map Fin (Spec.vadd u v)).
Proof.
  unfold np_add, Spec.vadd. simpl. f_equal.
  apply zip_with_map_Fin. reflexivity.
Qed.

Lemma np_sub_fin (u v : list R) :
  np_sub (Arr (map Fin u)) (Arr (map Fin v)) = Arr (map Fin (Spec.vsub u v)).
Proof.
  unfold np_sub, Spec.vsub. simpl. f_equal.
  apply zip_with_map_Fin. reflexivity.
Qed.

Lemma inner_fin (u v : list R) :
  inner (map Fin u) (map Fin v) = Fin (Spec.dot u v).
Proof.
  revert v. induction u as [|x u IH]; intros [|y v]; simpl; trivial.
  rewrite IH. reflexivity.
Qed.

Lemma dot_self_nonneg (v : list R) : 0 <= Spec.dot v v.
Proof.
  induction v as [|x v IH]; simpl; [lra|].
  pose proof (Rle_0_sqr x) as Hx. unfold Rsqr in Hx. lra.
Qed.

Lemma dot_self_zero (v : list R) :
  Spec.dot v v = 0 -> Forall (fun x => x = 0) v.
Proof.
  induction v as [|x v IH]; simpl; intros H; constructor.
  - pose proof (Rle_0_sqr x) as Hx. unfold Rsqr in Hx.
    pose proof (dot_self_nonneg v). nra.
  - apply IH. pose proof (Rle_0_sqr x) as Hx. unfold Rsqr in Hx.
    pose proof (dot_self_nonneg v). lra.
Qed.

Lemma magnitude_zero (v : list R) :
  Spec.magnitude v = 0 -> Forall (fun x => x = 0) v.
Proof.
  intros H. apply dot_self_zero. apply sqrt_eq_0; [apply dot_self_nonneg | exact H].
Qed.

Lemma norm_fin (v : list R) :
  norm (Arr (map Fin v)) = Fin (Spec.magnitude v).
Proof.
  unfold norm. simpl. rewrite inner_fin. simpl.
  rewrite Rlt_b_false; [reflexivity|].
  pose proof (dot_self_nonneg v). lra.
Qed.

Lemma normalize_fin (v : list R) :
  Spec.magnitude v <> 0 ->
  normalize (Arr (map Fin v)) = Arr (map Fin (Spec.unit v)).
Proof.
  intros Hn. unfold normalize. rewrite norm_fin. unfold np_div. simpl. f_equal.
  unfold Spec.unit. rewrite !map_map. apply map_ext. intros x. simpl.
  rewrite Req_b_false by exact Hn. reflexivity.
Qed.

(** Dividing by a zero magnitude: every entry is [0 / 0]. *)
Lemma normalize_zero (v : list R) :
  Spec.magnitude v = 0 ->
  normalize (Arr (map Fin v)) = Arr (map (fun _ => NaN) v).
Proof.
  intros Hn. unfold normalize. rewrite norm_fin. unfold np_div. simpl. f_equal.
  rewrite map_map. apply map_ext_in. intros x Hx. simpl.
  rewrite Req_b_true by exact Hn.
  pose proof (magnitude_zero v Hn) as Hz. rewrite Forall_forall in Hz.
  rewrite Req_b_true by (apply Hz; exact Hx). reflexivity.
Qed.

Lemma dot_div (n : R) (v : list R) :
  n <> 0 ->
  Spec.dot (map (fun x => x / n) v) (map (fun x => x / n) v)
  = Spec.dot v v / (n * n).
Proof.
  intros Hn. induction v as [|x v IH]; simpl.
  - field. exact Hn.
  - rewrite IH. field. exact Hn.
Qed.

(** A vector divided by its non-zero magnitude has magnitude one. *)
Lemma magnitude_unit (v : list R) :
  Spec.magnitude v <> 0 -> Spec.magnitude (Spec.unit v) = 1.
Proof.
  intros Hn. unfold Spec.unit.
  unfold Spec.magnitude at 1. rewrite dot_div by exact Hn.
  unfold Spec.magnitude. rewrite sqrt_sqrt by apply dot_self_nonneg.
  assert (Hd : Spec.dot v v <> 0).
  { intros Hz. apply Hn. unfold Spec.magnitude. rewrite Hz. apply sqrt_0. }
  replace (Spec.dot v v / Spec.dot v v) with 1 by (field; exact Hd).
  apply sqrt_1.
Qed.

(** ** Sums of groups *)

Lemma vector_of_position (E : WordEmbedding) (w : string) (i : nat) (row : list R) :
  position w (words E) = Some i ->
  nth_error (vecs E) i = Some row ->
  vector_of E w = Ok (map Fin row).
Proof.
  intros Hp Hn. unfold vector_of, index_of. rewrite Hp. simpl. rewrite Hn.
  reflexivity.
Qed.

Lemma sum_from_fin (E : WordEmbedding) (names : list string) :
  forall rs a,
    rows_of E names = Some rs ->
    sum_from E names (Arr (map Fin a))
    = Ok (Arr (map Fin (fold_left Spec.vadd rs a))).
Proof.
  induction names as [|w names IH]; intros rs a Hrs; simpl in Hrs.
  - inversion Hrs. reflexivity.
  - destruct (position w (words E)) as [i|] eqn:Hp; [|discriminate].
    destruct (rows_of E names) as [rs'|] eqn:Hr; [|discriminate].
    destruct (nth_error (vecs E) i) as [row|] eqn:Hn; [|discriminate].
    inversion Hrs; subst rs. simpl.
    rewrite (vector_of_position E w i row Hp Hn). simpl.
    rewrite np_add_fin. apply IH. reflexivity.
Qed.

Lemma add_zero_fin (row : list R) :
  np_add (Scalar (Fin 0)) (Arr (map Fin row)) = Arr (map Fin row).
Proof.
  unfold np_add. simpl. f_equal. rewrite map_map. apply map_ext.
  intros x. simpl. f_equal. lra.
Qed.

Lemma py_sum_rows (E : WordEmbedding) (names : list string) (rs : list (list R)) :
  rows_of E names = Some rs -> py_sum E names = Ok (group_sum rs).
Proof.
  unfold py_sum. destruct names as [|w names]; simpl; intros Hrs.
  - inversion Hrs. reflexivity.
  - destruct (position w (words E)) as [i|] eqn:Hp; [|discriminate].
    destruct (rows_of E names) as [rs'|] eqn:Hr; [|discriminate].
    destruct (nth_error (vecs E) i) as [row|] eqn:Hn; [|discriminate].
    inversion Hrs; subst rs.
    rewrite (vector_of_position E w i row Hp Hn). simpl.
    rewrite add_zero_fin. apply sum_from_fin. exact Hr.
Qed.

Lemma v_racial_rows (E : WordEmbedding) (g1 g2 : list string)
  (P N : list (list R)) :
  rows_of E g1 = Some P -> rows_of E g2 = Some N ->
  centroid_diff E g1 g2
  = Ok (np_sub (normalize (group_sum P)) (normalize (group_sum N)))
  /\ v_racial E g1 g2 = Ok (direction P N).
Proof.
  intros HP HN. unfold v_racial, centroid_diff.
  rewrite (py_sum_rows E g2 N HN), (py_sum_rows E g1 P HP). simpl.
  split; reflexivity.
Qed.

(** ** Words of the vocabulary have rows *)

Lemma position_In (w : string) (ws : list string) :
  In w ws -> exists i, position w ws = Some i /\ (i < length ws)%nat.
Proof.
  induction ws as [|x ws IH]; simpl; [tauto|]. intros Hin.
  destruct (String.eqb_spec x w) as [Heq|Hne].
  - exists O. split; [reflexivity | lia].
  - destruct Hin as [Hx|Hin]; [contradiction|].
    destruct (IH Hin) as [i [Hi Hlt]]. exists (S i). rewrite Hi.
    split; [reflexivity | lia].
Qed.

Lemma position_nth (w : string) (ws : list string) (i : nat) :
  position w ws = Some i -> nth_error ws i = Some w.
Proof.
  revert i. induction ws as [|x ws IH]; simpl; intros i H; [discriminate|].
  destruct (String.eqb_spec x w) as [Heq|Hne].
  - inversion H. subst. reflexivity.
  - destruct (position w ws) as [j|]; [|discriminate].
    inversion H. simpl. apply IH. reflexivity.
Qed.

Lemma vocabulary_row (D : nat) (E : WordEmbedding) (w : string) :
  wf_table D E -> In w (words E) ->
  exists i row,
    position w (words E) = Some i /\ nth_error (vecs E) i = Some row /\
    length row = D.
Proof.
  intros [_ [Hlen Hdim]] Hin.
  destruct (position_In w (words E) Hin) as [i [Hi Hlt]].
  rewrite <- Hlen in Hlt.
  destruct (nth_error (vecs E) i) as [row|] eqn:Hn.
  - exists i, row. repeat split; trivial.
    rewrite Forall_forall in Hdim. apply Hdim.
    eapply nth_error_In. exact Hn.
  - apply nth_error_None in Hn. lia.
Qed.

Lemma vocabulary_rows (D : nat) (E : WordEmbedding) (names : list string) :
  wf_table D E -> in_vocabulary E names ->
  rows_of E names = Some (rows E names) /\
  Forall (fun r => length r = D) (rows E names).
Proof.
  intros Hwf Hall. induction Hall as [|w names Hw Hall IH].
  - split; [reflexivity | constructor].
  - destruct IH as [Hrs Hdim].
    destruct (vocabulary_row D E w Hwf Hw) as [i [r [Hp [Hn Hr]]]].
    assert (Hrow : row E w = r).
    { unfold row. rewrite Hp. apply nth_error_nth. exact Hn. }
    simpl. rewrite Hp, Hrs, Hn, Hrow.
    split; [reflexivity | constructor; assumption].
Qed.

(** ** The scenario table *)

Lemma scenario_wf : wf_table 2 scenario.
Proof.
  unfold wf_table, scenario; simpl. split; [|split].
  - repeat constructor; simpl; intuition discriminate.
  - reflexivity.
  - repeat constructor.
Qed.

Lemma scenario_vocabulary (names : list string) :
  forallb (fun w => existsb (String.eqb w) (words scenario)) names = true ->
  in_vocabulary scenario names.
Proof.
  intros H. apply Forall_forall. intros w Hw.
  rewrite forallb_forall in H. specialize (H w Hw).
  apply existsb_exists in H. destruct H as [x [Hx Heq]].
  apply String.eqb_eq in Heq. subst. exact Hx.
Qed.

(** Magnitude of a vector of closed numbers whose squares sum to [r * r]. *)
Ltac magnitude_is r :=
  unfold Spec.magnitude; simpl Spec.dot;
  match goal with
  | |- sqrt ?e = _ => replace e with (r * r) by lra
  end;
  apply sqrt_square; lra.

Lemma magnitude_she : Spec.magnitude [0; 1] = 1.
Proof. magnitude_is 1. Qed.

Lemma magnitude_he : Spec.magnitude [1; 0] = 1.
Proof. magnitude_is 1. Qed.

Lemma sqrt2_bounds : 1.4142 < sqrt 2 < 1.4143.
Proof.
  assert (H2 : 0 <= 2) by lra.
  pose proof (sqrt_sqrt 2 H2) as Hs. pose proof (sqrt_pos 2) as Hp.
  split.
  - destruct (Rlt_dec 1.4142 (sqrt 2)) as [H|H]; [exact H | exfalso; nra].
  - destruct (Rlt_dec (sqrt 2) 1.4143) as [H|H]; [exact H | exfalso; nra].
Qed.

(** The direction of [{she}] against [{he}] on real vectors. *)
Lemma she_he_direction :
  Spec.from_groups [[0; 1]] [[1; 0]] = [(0 / 1 - 1 / 1) / sqrt 2; (1 / 1 - 0 / 1) / sqrt 2]
  /\ Spec.magnitude (Spec.vsub (Spec.unit [0; 1]) (Spec.unit [1; 0])) = sqrt 2.
Proof.
  assert (Hm : Spec.magnitude (Spec.vsub (Spec.unit [0; 1]) (Spec.unit [1; 0])) = sqrt 2).
  { unfold Spec.unit. rewrite magnitude_she, magnitude_he.
    unfold Spec.magnitude. simpl. f_equal. lra. }
  split; [|exact Hm].
  unfold Spec.from_groups. simpl Spec.vsum.
  unfold Spec.unit at 1. rewrite Hm.
  unfold Spec.unit. rewrite magnitude_she, magnitude_he. reflexivity.
Qed.

(** ** The group direction has unit length (C1) *)

Lemma group_sum_nonempty (rs : list (list R)) :
  rs <> [] -> group_sum rs = Arr (map Fin (Spec.vsum rs)).
Proof. destruct rs; [congruence | reflexivity]. Qed.

Lemma rows_nonempty (E : WordEmbedding) (names : list string) :
  names <> [] -> rows E names <> [].
Proof. destruct names; [congruence | discriminate]. Qed.

(** On groups with non-zero sums and distinct unit centroids the direction
    is the specification's, and has magnitude one. *)
Lemma direction_regular (P N : list (list R)) :
  P <> [] -> N <> [] ->
  Spec.magnitude (Spec.vsum P) <> 0 ->
  Spec.magnitude (Spec.vsum N) <> 0 ->
  Spec.magnitude
    (Spec.vsub (Spec.unit (Spec.vsum P)) (Spec.unit (Spec.vsum N))) <> 0 ->
  direction P N = Arr (map Fin (Spec.from_groups P N)) /\
  norm (direction P N) = Fin 1.
Proof.
  intros HP HN HmP HmN Hd.
  assert (Heq : direction P N = Arr (map Fin (Spec.from_groups P N))).
  { unfold direction.
    rewrite (group_sum_nonempty P HP), (group_sum_nonempty N HN).
    rewrite (normalize_fin _ HmP), (normalize_fin _ HmN).
    rewrite np_sub_fin. rewrite (normalize_fin _ Hd). reflexivity. }
  split; [exact Heq|].
  rewrite Heq, norm_fin. f_equal.
  unfold Spec.from_groups. apply magnitude_unit. exact Hd.
Qed.

(** A group against itself: the two unit centroids coincide, their
    difference has magnitude zero, and every entry of the result is
    [0 / 0]. *)
Lemma she_she_direction :
  centroid_diff scenario ["she"%string] ["she"%string]
  = Ok (Arr [Fin (0 / 1 - 0 / 1); Fin (1 / 1 - 1 / 1)])
  /\ norm (Arr [Fin (0 / 1 - 0 / 1); Fin (1 / 1 - 1 / 1)]) = Fin 0
  /\ v_racial scenario ["she"%string] ["she"%string] = Ok (Arr [NaN; NaN]).
Proof.
  assert (Hrows : rows_of scenario ["she"%string] = Some [[0; 1]]) by reflexivity.
  destruct (v_racial_rows scenario _ _ _ _ Hrows Hrows) as [Hc Hv].
  assert (Hsub : np_sub (normalize (group_sum [[0; 1]])) (normalize (group_sum [[0; 1]]))
                 = Arr (map Fin [0 / 1 - 0 / 1; 1 / 1 - 1 / 1])).
  { change (group_sum [[0; 1]]) with (Arr (map Fin [0; 1])).
    rewrite normalize_fin by (rewrite magnitude_she; lra).
    rewrite np_sub_fin. unfold Spec.unit. rewrite magnitude_she. reflexivity. }
  assert (Hz : Spec.magnitude [0 / 1 - 0 / 1; 1 / 1 - 1 / 1] = 0) by magnitude_is 0.
  split; [|split].
  - rewrite Hc, Hsub. reflexivity.
  - change (norm (Arr (map Fin [0 / 1 - 0 / 1; 1 / 1 - 1 / 1])) = Fin 0).
    rewrite norm_fin, Hz. reflexivity.
  - rewrite Hv. unfold direction. rewrite Hsub.
    rewrite (normalize_zero _ Hz). reflexivity.
Qed.



(** ** Empty groups (C2) *)

Lemma vector_of_cases (E : WordEmbedding) (w : string) :
  (exists r, vector_of E w = Ok (map Fin r)) \/
  vector_of E w = Raise (UnknownWordError w) \/
  (exists i, vector_of E w = Raise (IndexOutOfRangeError i)).
Proof.
  unfold vector_of, index_of.
  destruct (position w (words E)) as [i|]; simpl.
  - destruct (nth_error (vecs E) i) as [r|].
    + left. exists r. reflexivity.
    + right. right. exists i. reflexivity.
  - right. left. reflexivity.
Qed.

Lemma sum_from_never_empty_group_error (E : WordEmbedding) (names : list string) :
  forall acc, sum_from E names acc <> Raise EmptyGroupError.
Proof.
  induction names as [|w names IH]; intros acc; simpl; [discriminate|].
  destruct (vector_of_cases E w) as [[r Hr] | [Hr | [i Hr]]]; rewrite Hr; simpl.
  - apply IH.
  - discriminate.
  - discriminate.
Qed.

Lemma v_racial_never_empty_group_error (E : WordEmbedding) (g1 g2 : list string) :
  v_racial E g1 g2 <> Raise EmptyGroupError.
Proof.
  unfold v_racial, centroid_diff, py_sum.
  pose proof (sum_from_never_empty_group_error E g2 (Scalar (Fin 0))) as H2.
  pose proof (sum_from_never_empty_group_error E g1 (Scalar (Fin 0))) as H1.
  destruct (sum_from E g2 (Scalar (Fin 0))) as [s0|e0]; simpl; [|congruence].
  destruct (sum_from E g1 (Scalar (Fin 0))) as [s1|e1]; simpl; [|congruence].
  discriminate.
Qed.

(** The empty group: [sum] returns the integer [0], and [0 / 0] is nan. *)
Lemma normalize_empty_sum : normalize (group_sum []) = Scalar NaN.
Proof.
  unfold normalize, norm, np_div. simpl.
  rewrite Rlt_b_false by lra. simpl.
  replace (0 * 0 + 0) with 0 by lra. rewrite sqrt_0.
  R_decide. reflexivity.
Qed.

Lemma zip_with_length {A B C : Type} (f : A -> B -> C) (u : list A) (v : list B) :
  length u = length v -> length (zip_with f u v) = length u.
Proof.
  revert v. induction u as [|x u IH]; intros [|y v]; simpl; intros H;
    try reflexivity; try discriminate.
  f_equal. apply IH. lia.
Qed.

Lemma fold_vadd_length (D : nat) (rs : list (list R)) :
  Forall (fun r => length r = D) rs ->
  forall a, length a = D -> length (fold_left Spec.vadd rs a) = D.
Proof.
  induction 1 as [|r rs Hr Hrs IH]; intros a Ha; simpl; [exact Ha|].
  apply IH. unfold Spec.vadd. rewrite zip_with_length; lia.
Qed.

Lemma vsum_length (D : nat) (rs : list (list R)) :
  rs <> [] -> Forall (fun r => length r = D) rs -> length (Spec.vsum rs) = D.
Proof.
  destruct rs as [|r rs]; [congruence|]. intros _ H. inversion H; subst.
  simpl. apply fold_vadd_length; trivial.
Qed.

(** Normalising the sum of a non-empty group gives an array of the
    group's dimension, whatever its magnitude. *)
Lemma normalize_group_array (D : nat) (rs : list (list R)) :
  rs <> [] -> Forall (fun r => length r = D) rs ->
  exists a, normalize (group_sum rs) = Arr a /\ length a = D.
Proof.
  intros Hne Hdim. rewrite (group_sum_nonempty rs Hne).
  pose proof (vsum_length D rs Hne Hdim) as Hlen.
  destruct (Req_EM_T (Spec.magnitude (Spec.vsum rs)) 0) as [Hz|Hnz].
  - rewrite (normalize_zero _ Hz). eexists. split; [reflexivity|].
    rewrite length_map. exact Hlen.
  - rewrite (normalize_fin _ Hnz). eexists. split; [reflexivity|].
    unfold Spec.unit. rewrite !length_map. exact Hlen.
Qed.

Lemma map_const_repeat {A B : Type} (b : B) (l : list A) :
  map (fun _ => b) l = repeat b (length l).
Proof. induction l; simpl; congruence. Qed.

Lemma normalize_nan_array (D : nat) :
  normalize (Arr (repeat NaN D)) = Arr (repeat NaN D).
Proof.
  unfold normalize, np_div. simpl. f_equal.
  generalize (norm (Arr (repeat NaN D))). intros n.
  induction D as [|D IH]; simpl; [reflexivity|]. rewrite IH. reflexivity.
Qed.

Lemma nan_sub_array (a : vec) :
  np_sub (Scalar NaN) (Arr a) = Arr (repeat NaN (length a)).
Proof.
  unfold np_sub. simpl. f_equal. rewrite <- map_const_repeat. reflexivity.
Qed.

Lemma array_sub_nan (a : vec) :
  np_sub (Arr a) (Scalar NaN) = Arr (repeat NaN (length a)).
Proof.
  unfold np_sub. simpl. f_equal. rewrite <- map_const_repeat.
  apply map_ext. intros [x|s|]; reflexivity.
Qed.

(** C2, as stated, fails: with an empty positive group and [{he}] as the
    negative one nothing is raised; the value is nan in both entries. *)
Lemma from_groups_empty_counterexample :
  v_racial scenario [] ["he"%string] = Ok (Arr [NaN; NaN]) /\
  v_racial scenario [] ["he"%string] <> Raise EmptyGroupError.
Proof.
  assert (H : v_racial scenario [] ["he"%string] = Ok (Arr [NaN; NaN])).
  { assert (Hhe : rows_of scenario ["he"%string] = Some [[1; 0]]) by reflexivity.
    assert (Hnil : rows_of scenario [] = Some []) by reflexivity.
    destruct (v_racial_rows scenario _ _ _ _ Hnil Hhe) as [_ Hv].
    rewrite Hv. unfold direction. rewrite normalize_empty_sum.
    destruct (normalize_group_array 2 [[1; 0]]) as [a [Ha Hlen]];
      [discriminate | repeat constructor |].
    rewrite Ha, nan_sub_array, Hlen, (normalize_nan_array 2). reflexivity. }
  split; [exact H|]. rewrite H. discriminate.
Qed.

(** C2, amended: [v_racial] (the specification's [from_groups]) never
    fails with [EmptyGroupError].  When one group is empty and the other is
    a non-empty group of vocabulary words, the empty group's sum is the
    integer [0], its normalisation is [0 / 0], and the value returned is
    an array of the table's dimension with nan in every entry; when both
    groups are empty it is the scalar nan. *)
Theorem from_groups_empty_group :
  (forall E g1 g2, v_racial E g1 g2 <> Raise EmptyGroupError)
  /\ (forall E, v_racial E [] [] = Ok (Scalar NaN))
  /\ (forall (D : nat) (E : WordEmbedding) (G : list string),
         wf_table D E -> G <> [] -> in_vocabulary E G ->
         v_racial E [] G = Ok (Arr (repeat NaN D)) /\
         v_racial E G [] = Ok (Arr (repeat NaN D))).
Proof.
  split; [exact v_racial_never_empty_group_error|].
  split.
  - intros E.
    assert (Hnil : rows_of E [] = Some []) by reflexivity.
    destruct (v_racial_rows E _ _ _ _ Hnil Hnil) as [_ Hv].
    rewrite Hv. unfold direction. rewrite normalize_empty_sum.
    unfold np_sub, normalize, norm, np_div. reflexivity.
  - intros D E G Hwf Hne Hin.
    destruct (vocabulary_rows D E G Hwf Hin) as [Hrows Hdim].
    assert (Hnil : rows_of E [] = Some []) by reflexivity.
    destruct (normalize_group_array D (rows E G)) as [a [Ha Hlen]];
      [apply rows_nonempty; exact Hne | exact Hdim |].
    split.
    + destruct (v_racial_rows E _ _ _ _ Hnil Hrows) as [_ Hv].
      rewrite Hv. unfold direction. rewrite normalize_empty_sum.
      rewrite Ha, nan_sub_array, Hlen, normalize_nan_array. reflexivity.
    + destruct (v_racial_rows E _ _ _ _ Hrows Hnil) as [_ Hv].
      rewrite Hv. unfold direction. rewrite normalize_empty_sum.
      rewrite Ha, array_sub_nan, Hlen, normalize_nan_array. reflexivity.
Qed.

(** The conditions of C2 hold for [{he}] in the scenario. *)
Lemma from_groups_empty_group_witness :
  v_racial scenario [] ["he"%string] = Ok (Arr (repeat NaN 2)) /\
  v_racial scenario ["he"%string] [] = Ok (Arr (repeat NaN 2)).
Proof.
  apply (proj2 (proj2 from_groups_empty_group) 2%nat scenario ["he"%string]).
  - exact scenario_wf.
  - discriminate.
  - apply scenario_vocabulary; reflexivity.
Defined.

(** ** Dividing by a zero magnitude (C9) *)

Lemma vsub_self (u : list R) : Spec.vsub u u = map (fun _ => 0) u.
Proof.
  unfold Spec.vsub. induction u as [|x u IH]; simpl; [reflexivity|].
  rewrite IH. f_equal. lra.
Qed.

Lemma magnitude_zeros {A : Type} (l : list A) :
  Spec.magnitude (map (fun _ => 0) l) = 0.
Proof.
  unfold Spec.magnitude.
  assert (H : Spec.dot (map (fun _ : A => 0) l) (map (fun _ : A => 0) l) = 0).
  { induction l as [|x l IH]; simpl; [reflexivity|]. rewrite IH. lra. }
  rewrite H. apply sqrt_0.
Qed.

(** A group against itself, whenever its sum is not the zero vector. *)
Lemma same_group_direction (D : nat) (E : WordEmbedding) (G : list string) :
  wf_table D E -> G <> [] -> in_vocabulary E G ->
  Spec.magnitude (Spec.vsum (rows E G)) <> 0 ->
  (exists d, centroid_diff E G G = Ok d /\ norm d = Fin 0) /\
  v_racial E G G = Ok (Arr (repeat NaN D)).
Proof.
  intros Hwf Hne Hin Hm.
  destruct (vocabulary_rows D E G Hwf Hin) as [Hrows Hdim].
  destruct (v_racial_rows E G G _ _ Hrows Hrows) as [Hc Hv].
  pose proof (rows_nonempty E G Hne) as Hrne.
  pose proof (vsum_length D (rows E G) Hrne Hdim) as Hlen.
  assert (Hsub : np_sub (normalize (group_sum (rows E G)))
                        (normalize (group_sum (rows E G)))
                 = Arr (map Fin (map (fun _ => 0) (Spec.unit (Spec.vsum (rows E G)))))).
  { rewrite (group_sum_nonempty _ Hrne), (normalize_fin _ Hm), np_sub_fin, vsub_self.
    reflexivity. }
  split.
  - eexists. split; [rewrite Hc, Hsub; reflexivity|].
    rewrite norm_fin, magnitude_zeros. reflexivity.
  - rewrite Hv. unfold direction. rewrite Hsub.
    rewrite (normalize_zero _ (magnitude_zeros _)).
    rewrite map_const_repeat. unfold Spec.unit. rewrite !length_map, Hlen.
    reflexivity.
Qed.

(** C9: there are two non-empty groups of vocabulary words -- [{she}]
    twice, whose unit centroids coincide -- for which the difference of
    the unit centroids has magnitude zero, so that the last normalisation
    divides by zero.  No error of any kind is raised: the result is an
    array with nan in every entry.  The same happens for every non-empty
    group of vocabulary words taken against itself, provided its sum is
    not the zero vector. *)
Theorem from_groups_zero_magnitude :
  (exists (D : nat) (E : WordEmbedding) (G1 G2 : list string),
      wf_table D E /\
      G1 <> [] /\ G2 <> [] /\
      in_vocabulary E G1 /\ in_vocabulary E G2 /\
      (exists d, centroid_diff E G1 G2 = Ok d /\ norm d = Fin 0) /\
      v_racial E G1 G2 = Ok (Arr [NaN; NaN]) /\
      (forall e, v_racial E G1 G2 <> Raise e))
  /\ (forall (D : nat) (E : WordEmbedding) (G : list string),
         wf_table D E -> G <> [] -> in_vocabulary E G ->
         Spec.magnitude (Spec.vsum (rows E G)) <> 0 ->
         (exists d, centroid_diff E G G = Ok d /\ norm d = Fin 0) /\
         v_racial E G G = Ok (Arr (repeat NaN D))).
Proof.
  split; [|exact same_group_direction].
  exists 2%nat, scenario, ["she"%string], ["she"%string].
  destruct she_she_direction as [Hc [Hn Hv]].
  split; [exact scenario_wf|].
  split; [discriminate|]. split; [discriminate|].
  split; [apply scenario_vocabulary; reflexivity|].
  split; [apply scenario_vocabulary; reflexivity|].
  split; [eexists; split; [exact Hc | exact Hn]|].
  split; [exact Hv|].
  intros e. rewrite Hv. discriminate.
Qed.

(** ** Subtraction and the order of its arguments *)

Lemma num_sub_antisym (a b : num) : num_sub b a = num_neg (num_sub a b).
Proof.
  destruct a as [x|s|], b as [y|t|]; simpl; trivial;
    try (f_equal; lra);
    repeat match goal with c : bool |- _ => destruct c end; reflexivity.
Qed.

(** ** Scaling one group (C10) *)









(** ** The order of words *)

Lemma string_compare_refl (s : string) : String.compare s s = Eq.
Proof. apply OrderedTypeEx.String_as_OT.cmp_eq. reflexivity. Qed.

Lemma string_leb_refl (s : string) : String.leb s s = true.
Proof. unfold String.leb. rewrite string_compare_refl. reflexivity. Qed.

Lemma string_ltb_leb (s t : string) : String.ltb s t = true -> String.leb s t = true.
Proof.
  unfold String.ltb, String.leb. destruct (String.compare s t); simpl; congruence.
Qed.

Lemma string_not_ltb_leb (s t : string) :
  String.ltb t s = false -> String.leb s t = true.
Proof.
  unfold String.ltb, String.leb. rewrite (String.compare_antisym t s).
  destruct (String.compare s t); simpl; congruence.
Qed.

Lemma string_leb_cases (s t : string) :
  String.leb s t = true <-> s = t \/ OrderedTypeEx.String_as_OT.lt s t.
Proof.
  unfold String.leb. split.
  - destruct (String.compare s t) eqn:Hc; intros H; try discriminate.
    + left. apply OrderedTypeEx.String_as_OT.cmp_eq. exact Hc.
    + right. apply OrderedTypeEx.String_as_OT.cmp_lt. exact Hc.
  - intros [Heq|Hlt].
    + subst. rewrite string_compare_refl. reflexivity.
    + apply OrderedTypeEx.String_as_OT.cmp_lt in Hlt.
      unfold OrderedTypeEx.String_as_OT.cmp in Hlt. rewrite Hlt. reflexivity.
Qed.

Lemma string_leb_trans (s t u : string) :
  String.leb s t = true -> String.leb t u = true -> String.leb s u = true.
Proof.
  rewrite !string_leb_cases. intros [Hst|Hst] [Htu|Htu]; subst; auto.
  right. eapply OrderedTypeEx.String_as_OT.lt_trans; eassumption.
Qed.

(** ** Sorting *)

Lemma insert_perm (x : num * string) (l : list (num * string)) :
  Permutation (insert x l) (x :: l).
Proof.
  induction l as [|y l IH]; simpl; [reflexivity|].
  destruct (tuple_ltb y x); [|reflexivity].
  rewrite IH. apply perm_swap.
Qed.

Lemma sorted_perm (l : list (num * string)) : Permutation (sorted l) l.
Proof.
  induction l as [|x l IH]; simpl; [reflexivity|].
  rewrite insert_perm. constructor. exact IH.
Qed.

Lemma sorted_finite (l : list (num * string)) :
  Forall finite_score l -> Forall finite_score (sorted l).
Proof.
  intros H. rewrite Forall_forall in *. intros p Hp. apply H.
  eapply Permutation_in; [apply sorted_perm | exact Hp].
Qed.

Lemma StronglySorted_nth {A : Type} (R : A -> A -> Prop) (l : list A) :
  StronglySorted R l ->
  forall i j a b, (i < j)%nat ->
    nth_error l i = Some a -> nth_error l j = Some b -> R a b.
Proof.
  induction 1 as [|x l Hs IH Hall]; intros i j a b Hij Hi Hj.
  - destruct i; discriminate.
  - destruct j as [|j]; [lia|]. simpl in Hj.
    destruct i as [|i]; simpl in Hi.
    + inversion Hi; subst. rewrite Forall_forall in Hall. apply Hall.
      eapply nth_error_In. exact Hj.
    + apply (IH i j); [lia | exact Hi | exact Hj].
Qed.

(** ** The ranking on the scenario (C3, C5) *)

Lemma finite_vec (v : vec) : Forall is_finite v -> exists r, v = map Fin r.
Proof.
  induction 1 as [|x v Hx Hv [r Hr]].
  - exists []. reflexivity.
  - destruct x as [x| |]; try contradiction.
    exists (x :: r). simpl. rewrite Hr. reflexivity.
Qed.

(** Evaluates [sorted] on a list of tuples with closed scores. *)
Ltac sort_closed :=
  unfold sorted; simpl; unfold tuple_ltb; simpl; R_decide; simpl.

(** C3, as stated, fails: with the direction [[1, 1]] the words "she" and
    "he" both score [1]; given in the order she, he they come out in the
    order he, she. *)
Lemma rank_stability_counterexample :
  scored scenario [Fin 1; Fin 1] ["she"; "he"]%string
  = Ok [(Fin 1, "she"%string); (Fin 1, "he"%string)]
  /\ sp scenario [Fin 1; Fin 1] ["she"; "he"]%string
     = Ok [(Fin 1, "he"%string); (Fin 1, "she"%string)].
Proof.
  assert (Hs : scored scenario [Fin 1; Fin 1] ["she"; "he"]%string
               = Ok [(Fin 1, "she"%string); (Fin 1, "he"%string)]).
  { simpl. replace (0 * 1 + (1 * 1 + 0)) with 1 by lra.
    replace (1 * 1 + (0 * 1 + 0)) with 1 by lra. reflexivity. }
  split; [exact Hs|].
  unfold sp. rewrite Hs. simpl bind. sort_closed. reflexivity.
Qed.

(** C5: in the scenario, the unnormalised pair direction of "she" against
    "he" is [[-1, 1]]; "king" scores [0] and "queen" scores [2] on it; and
    the ranking of the two candidates is king, queen, in whichever order
    they are given. *)
Theorem scenario_king_queen :
  from_pair scenario Unnormalized "she" "he" = Ok (Arr [Fin (-1); Fin 1])
  /\ (x <- vector_of scenario "king" ;; np_dot x [Fin (-1); Fin 1]) = Ok (Fin 0)
  /\ (x <- vector_of scenario "queen" ;; np_dot x [Fin (-1); Fin 1]) = Ok (Fin 2)
  /\ sp scenario [Fin (-1); Fin 1] ["king"; "queen"]%string
     = Ok [(Fin 0, "king"%string); (Fin 2, "queen"%string)]
  /\ sp scenario [Fin (-1); Fin 1] ["queen"; "king"]%string
     = Ok [(Fin 0, "king"%string); (Fin 2, "queen"%string)].
Proof.
  assert (Hking : 1 * -1 + (1 * 1 + 0) = 0) by lra.
  assert (Hqueen : 0 * -1 + (2 * 1 + 0) = 2) by lra.
  split; [|split; [|split; [|split]]].
  - unfold from_pair. simpl. unfold np_sub. simpl.
    replace (0 - 1) with (-1) by lra. replace (1 - 0) with 1 by lra.
    reflexivity.
  - simpl. unfold np_dot. simpl. rewrite Hking. reflexivity.
  - simpl. unfold np_dot. simpl. rewrite Hqueen. reflexivity.
  - unfold sp. simpl. rewrite Hking, Hqueen. sort_closed. reflexivity.
  - unfold sp. simpl. rewrite Hking, Hqueen. sort_closed. reflexivity.
Qed.

(** ** The vocabulary round trip (C8) *)

Lemma position_first (ws : list string) :
  NoDup ws ->
  forall i w, nth_error ws i = Some w -> position w ws = Some i.
Proof.
  induction 1 as [|x ws Hx Hnd IH]; intros i w Hn.
  - destruct i; discriminate.
  - simpl. destruct i as [|i]; simpl in Hn.
    + inversion Hn; subst. rewrite String.eqb_refl. reflexivity.
    + destruct (String.eqb_spec x w) as [Heq|Hne].
      * subst. exfalso. apply Hx. eapply nth_error_In. exact Hn.
      * rewrite (IH i w Hn). reflexivity.
Qed.

Lemma index_of_word_at (E : WordEmbedding) (w : string) :
  In w (words E) -> exists i, index_of E w = Ok i /\ word_at E i = Ok w.
Proof.
  intros Hin. destruct (position_In w (words E) Hin) as [i [Hi _]].
  exists i. unfold index_of, word_at. rewrite Hi, (position_nth _ _ _ Hi).
  split; reflexivity.
Qed.

(** Reading a word at an index and looking it up gives the index back
    exactly when the words are distinct. *)
Lemma word_at_index_of_iff (E : WordEmbedding) :
  NoDup (words E) <->
  (forall i, (i < size E)%nat ->
     exists w, word_at E i = Ok w /\ index_of E w = Ok i).
Proof.
  unfold size, word_at, index_of. split.
  - intros Hnd i Hi.
    destruct (nth_error (words E) i) as [w|] eqn:Hn.
    + exists w. rewrite (position_first _ Hnd i w Hn). split; reflexivity.
    + apply nth_error_None in Hn. lia.
  - intros H. apply NoDup_nth_error. intros i j Hi Hij.
    destruct (H i Hi) as [w [Hw Hp]].
    destruct (nth_error (words E) i) as [w'|] eqn:Hn; [|discriminate].
    inversion Hw; subst w'.
    assert (Hj : (j < length (words E))%nat).
    { apply nth_error_Some. rewrite <- Hij. discriminate. }
    destruct (H j Hj) as [w2 [Hw2 Hp2]].
    rewrite <- Hij in Hw2. inversion Hw2; subst w2.
    destruct (position w (words E)); [|discriminate].
    inversion Hp; inversion Hp2; subst. reflexivity.
Qed.

(** C8: in a table that satisfies the data model's invariant, every
    vocabulary word has an index whose word is that word again, every
    index below the size has a word whose index is that index again, and
    the words are distinct. *)
Theorem vocabulary_round_trip (D : nat) (E : WordEmbedding) :
  wf_table D E ->
  (forall w, In w (words E) ->
     exists i, index_of E w = Ok i /\ word_at E i = Ok w) /\
  (forall i, (i < size E)%nat ->
     exists w, word_at E i = Ok w /\ index_of E w = Ok i) /\
  NoDup (words E).
Proof.
  intros [Hnd _]. split; [|split].
  - intros w. apply index_of_word_at.
  - apply word_at_index_of_iff. exact Hnd.
  - exact Hnd.
Qed.

(** The scenario satisfies the invariant of C8. *)
Lemma vocabulary_round_trip_witness :
  (forall w, In w (words scenario) ->
     exists i, index_of scenario w = Ok i /\ word_at scenario i = Ok w) /\
  (forall i, (i < size scenario)%nat ->
     exists w, word_at scenario i = Ok w /\ index_of scenario w = Ok i) /\
  NoDup (words scenario).
Proof.
  apply (vocabulary_round_trip 2 scenario). exact scenario_wf.
Defined.

(** ** The analogy finder returns each pair once (C7) *)

Lemma candidate_pairs_spec (pool : list nat) (p : nat * nat) :
  In p (candidate_pairs pool) ->
  In (fst p) pool /\ In (snd p) pool /\ fst p <> snd p.
Proof.
  unfold candidate_pairs. rewrite in_flat_map. intros [a [Ha Hp]].
  apply in_map_iff in Hp. destruct Hp as [b [Hp Hb]]. subst p. simpl.
  apply filter_In in Hb. destruct Hb as [Hb Hne].
  repeat split; trivial. intros Heq. subst b.
  rewrite Nat.eqb_refl in Hne. discriminate.
Qed.

Lemma same_pair_sym (p q : nat * nat) : same_pair p q = same_pair q p.
Proof.
  unfold same_pair.
  rewrite (Nat.eqb_sym (fst p) (fst q)), (Nat.eqb_sym (snd p) (snd q)).
  rewrite (Nat.eqb_sym (fst p) (snd q)), (Nat.eqb_sym (snd p) (fst q)).
  f_equal. apply andb_comm.
Qed.

Lemma dedup_incl (l : list (nat * nat)) (p : nat * nat) :
  In p (dedup l) -> In p l.
Proof.
  induction l as [|a l IH]; simpl; [tauto|].
  intros [H|H]; [left; exact H|]. right. apply IH.
  apply filter_In in H. tauto.
Qed.

Lemma dedup_unique (l : list (nat * nat)) (p q : nat * nat) :
  In p (dedup l) -> In q (dedup l) -> same_pair p q = true -> p = q.
Proof.
  induction l as [|a l IH]; simpl; [tauto|].
  intros [Hp|Hp] [Hq|Hq] Hs.
  - congruence.
  - subst a. apply filter_In in Hq. destruct Hq as [_ Hq].
    rewrite Hs in Hq. discriminate.
  - subst a. apply filter_In in Hp. destruct Hp as [_ Hp].
    rewrite same_pair_sym, Hs in Hp. discriminate.
  - apply filter_In in Hp. apply filter_In in Hq. apply IH; tauto.
Qed.

Lemma insert_pair_perm (E : WordEmbedding) (reference : vec)
  (x : nat * nat) (l : list (nat * nat)) :
  Permutation (insert_pair E reference x l) (x :: l).
Proof.
  induction l as [|y l IH]; simpl; [reflexivity|].
  destruct (more_confident E reference x y); [reflexivity|].
  rewrite IH. apply perm_swap.
Qed.

Lemma sort_pairs_perm (E : WordEmbedding) (reference : vec) (l : list (nat * nat)) :
  Permutation (sort_pairs E reference l) l.
Proof.
  induction l as [|x l IH]; simpl; [reflexivity|].
  rewrite insert_pair_perm. constructor. exact IH.
Qed.

(** What the selection keeps: pairs of two different indices of the
    vocabulary, no unordered pair twice. *)
Lemma selected_pairs_spec (E : WordEmbedding) (reference : vec) (K : nat)
  (sim_thresh dist_thresh : num) :
  let sel := selected_pairs E reference K sim_thresh dist_thresh in
  (forall p, In p sel ->
     (fst p < size E)%nat /\ (snd p < size E)%nat /\ fst p <> snd p) /\
  (forall p q, In p sel -> In q sel -> same_pair p q = true -> p = q).
Proof.
  unfold selected_pairs.
  set (raw := map (orient E reference)
                (filter (accept E reference sim_thresh dist_thresh)
                   (candidate_pairs (candidate_pool E K)))).
  simpl. split.
  - intros p Hp.
    apply (Permutation_in _ (sort_pairs_perm E reference (dedup raw))) in Hp.
    apply dedup_incl in Hp. unfold raw in Hp.
    apply in_map_iff in Hp. destruct Hp as [p0 [Ho Hp0]].
    apply filter_In in Hp0. destruct Hp0 as [Hp0 _].
    apply candidate_pairs_spec in Hp0. destruct Hp0 as [H1 [H2 Hne]].
    unfold candidate_pool in H1, H2. apply in_seq in H1. apply in_seq in H2.
    unfold orient in Ho.
    destruct (num_ltb (cos_sim E reference p0) (Fin 0)); subst p; simpl;
      repeat split; try lia; congruence.
  - intros p q Hp Hq.
    apply (Permutation_in _ (sort_pairs_perm E reference (dedup raw))) in Hp.
    apply (Permutation_in _ (sort_pairs_perm E reference (dedup raw))) in Hq.
    apply (dedup_unique raw); assumption.
Qed.

Lemma distinct_words (ws : list string) (i j : nat) :
  NoDup ws -> (i < length ws)%nat -> (j < length ws)%nat ->
  nth i ws EmptyString = nth j ws EmptyString -> i = j.
Proof.
  intros Hnd Hi Hj Heq.
  rewrite (NoDup_nth ws EmptyString) in Hnd. apply Hnd; assumption.
Qed.

(** C7: whatever the reference direction, the bound [K] and the two
    thresholds, the finder returns a list exactly when the reference has
    the table's dimension, and then no returned pair has the same word on
    both sides and no two returned pairs are each other's reversal. *)
Theorem analogy_pairs_once
  (D : nat) (E : WordEmbedding) (reference : vec) (K : nat)
  (sim_thresh dist_thresh : num) :
  wf_table D E ->
  (length reference = dimension E ->
   exists out, AnalogyFinder E reference K sim_thresh dist_thresh = Ok out) /\
  (forall out,
      AnalogyFinder E reference K sim_thresh dist_thresh = Ok out ->
      (forall t, In t out -> word_a t <> word_b t) /\
      (forall t u, In t out -> In u out ->
         ~ (word_a t = word_b u /\ word_b t = word_a u))).
Proof.
  intros [Hnd _]. unfold AnalogyFinder. split.
  - intros Hlen. rewrite Hlen, Nat.eqb_refl. eexists. reflexivity.
  - intros out Hout.
    destruct (Nat.eqb (length reference) (dimension E)); [|discriminate].
    inversion Hout; subst out. clear Hout.
    destruct (selected_pairs_spec E reference K sim_thresh dist_thresh)
      as [Hidx Huniq].
    assert (Hpair : forall t u p q,
               In p (selected_pairs E reference K sim_thresh dist_thresh) ->
               In q (selected_pairs E reference K sim_thresh dist_thresh) ->
               t = analogy_pair E p -> u = analogy_pair E q ->
               word_a t = word_b u -> word_b t = word_a u -> False).
    { intros t u p q Hp Hq Ht Hu Hab Hba. subst t u.
      unfold word_a, word_b, analogy_pair in Hab, Hba. simpl in Hab, Hba.
      destruct (Hidx p Hp) as [Hp1 [Hp2 Hpne]].
      destruct (Hidx q Hq) as [Hq1 [Hq2 Hqne]].
      apply (distinct_words _ _ _ Hnd Hp1 Hq2) in Hab.
      apply (distinct_words _ _ _ Hnd Hp2 Hq1) in Hba.
      assert (Hs : same_pair p q = true).
      { unfold same_pair. rewrite Hab, Hba, !Nat.eqb_refl. apply orb_true_r. }
      pose proof (Huniq p q Hp Hq Hs) as Heq. subst q. congruence. }
    split.
    + intros t Ht Heq. apply in_map_iff in Ht. destruct Ht as [p [Hp Hin]].
      apply (Hpair t t p p Hin Hin (eq_sym Hp) (eq_sym Hp) Heq (eq_sym Heq)).
    + intros t u Ht Hu [Hab Hba].
      apply in_map_iff in Ht. destruct Ht as [p [Hp Hinp]].
      apply in_map_iff in Hu. destruct Hu as [q [Hq Hinq]].
      apply (Hpair t u p q Hinp Hinq (eq_sym Hp) (eq_sym Hq) Hab Hba).
Qed.

(** The scenario satisfies the invariant of C7. *)
Lemma analogy_pairs_once_witness :
  (length [Fin (-1); Fin 1] = dimension scenario ->
   exists out, AnalogyFinder scenario [Fin (-1); Fin 1] 4 (Fin 0.5) (Fin 1) = Ok out) /\
  (forall out,
      AnalogyFinder scenario [Fin (-1); Fin 1] 4 (Fin 0.5) (Fin 1) = Ok out ->
      (forall t, In t out -> word_a t <> word_b t) /\
      (forall t u, In t out -> In u out ->
         ~ (word_a t = word_b u /\ word_b t = word_a u))).
Proof.
  apply (analogy_pairs_once 2 scenario). exact scenario_wf.
Defined.

(** The finder at work on the two-word table, with the direction of
    "she" against "he" as reference. *)

Lemma sqrt2_square : sqrt 2 * sqrt 2 = 2.
Proof. apply sqrt_sqrt. lra. Qed.

Lemma norm_sqrt2 (x y : R) :
  x * x + (y * y + 0) = 2 -> norm (Arr [Fin x; Fin y]) = Fin (sqrt 2).
Proof.
  intros H. change (Arr [Fin x; Fin y]) with (Arr (map Fin [x; y])).
  rewrite norm_fin. unfold Spec.magnitude. simpl. rewrite H. reflexivity.
Qed.

Lemma he_she_measures :
  cos_sim he_she [Fin (-1); Fin 1] (0, 1)%nat = Fin (-1) /\
  cos_sim he_she [Fin (-1); Fin 1] (1, 0)%nat = Fin 1 /\
  magnitude_gap he_she [Fin (-1); Fin 1] (0, 1)%nat = Fin 0 /\
  magnitude_gap he_she [Fin (-1); Fin 1] (1, 0)%nat = Fin 0.
Proof.
  unfold cos_sim, cosine_similarity, magnitude_gap.
  change (diff_of he_she (0, 1)%nat) with [Fin (1 - 0); Fin (0 - 1)].
  change (diff_of he_she (1, 0)%nat) with [Fin (0 - 1); Fin (1 - 0)].
  rewrite !norm_sqrt2 by lra. simpl. rewrite sqrt2_square, Rminus_diag, Rabs_R0.
  R_decide. repeat split; f_equal; lra.
Qed.

(** With a similarity threshold of one half only "she"-"he" is accepted. *)
Lemma analogy_she_he :
  AnalogyFinder he_she [Fin (-1); Fin 1] 2 (Fin 0.5) (Fin 1)
  = Ok [("she"%string, "he"%string, [Fin (0 - 1); Fin (1 - 0)])].
Proof.
  destruct he_she_measures as [C01 [C10 [G01 G10]]].
  unfold AnalogyFinder. simpl Nat.eqb. cbv iota. unfold selected_pairs.
  change (candidate_pairs (candidate_pool he_she 2)) with [(0, 1); (1, 0)]%nat.
  assert (A : filter (accept he_she [Fin (-1); Fin 1] (Fin 0.5) (Fin 1))
                [(0, 1); (1, 0)]%nat = [(1, 0)]%nat).
  { simpl. unfold accept. rewrite C01, C10, G10. simpl. R_decide. reflexivity. }
  rewrite A. simpl map at 2. unfold orient. rewrite C10. simpl. R_decide.
  reflexivity.
Qed.

(** With a negative threshold both orders are accepted, "he"-"she" is
    turned round, and the pair is still returned once. *)
Lemma analogy_she_he_once :
  AnalogyFinder he_she [Fin (-1); Fin 1] 2 (Fin (-2)) (Fin 1)
  = Ok [("she"%string, "he"%string, [Fin (0 - 1); Fin (1 - 0)])].
Proof.
  destruct he_she_measures as [C01 [C10 [G01 G10]]].
  unfold AnalogyFinder. simpl Nat.eqb. cbv iota. unfold selected_pairs.
  change (candidate_pairs (candidate_pool he_she 2)) with [(0, 1); (1, 0)]%nat.
  assert (A : filter (accept he_she [Fin (-1); Fin 1] (Fin (-2)) (Fin 1))
                [(0, 1); (1, 0)]%nat = [(0, 1); (1, 0)]%nat).
  { simpl. unfold accept. rewrite C01, C10, G01, G10. simpl. R_decide. reflexivity. }
  rewrite A. simpl map at 2. unfold orient. rewrite C01, C10. simpl. R_decide.
  reflexivity.
Qed.

(** ** The error paths on the scenario *)

Example sp_unknown_word :
  sp scenario [Fin 1; Fin 1] ["king"; "prince"]%string
  = Raise (UnknownWordError "prince").
Proof. reflexivity. Qed.

Example sp_wrong_dimension :
  sp scenario [Fin 1] ["king"]%string = Raise DimensionMismatchError.
Proof. reflexivity. Qed.

Example v_racial_unknown_word :
  v_racial scenario ["she"]%string ["prince"]%string
  = Raise (UnknownWordError "prince").
Proof. reflexivity. Qed.

Example word_at_out_of_range :
  word_at scenario 4 = Raise (IndexOutOfRangeError 4).
Proof. reflexivity. Qed.

(** * Further properties of the notebook's cells *)

(** ** The two name groups *)

Lemma list_pair_ind {A : Type} (P : list A -> Prop) :
  P [] -> (forall a, P [a]) ->
  (forall a b l, P l -> P (a :: b :: l)) ->
  forall l, P l.
Proof.
  intros Hnil Hone Hstep.
  assert (H : forall l, P l /\ forall a, P (a :: l)).
  { induction l as [|x l [IH1 IH2]]; split; auto. }
  intros l. apply H.
Qed.

Lemma comprehension_ext {A B : Type} (f g : A -> result B) (l : list A) :
  (forall i, In i l -> f i = g i) -> comprehension f l = comprehension g l.
Proof.
  induction l as [|i l IH]; intros H; simpl; [reflexivity|].
  rewrite (H i (or_introl eq_refl)), IH; [reflexivity|].
  intros j Hj. apply H. right. exact Hj.
Qed.

Lemma comprehension_map {A B C : Type} (f : B -> result C) (h : A -> B)
  (l : list A) :
  comprehension f (map h l) = comprehension (fun i => f (h i)) l.
Proof.
  induction l as [|i l IH]; simpl; [reflexivity|]. rewrite IH. reflexivity.
Qed.

Lemma half_step (n : nat) : Nat.div (S (S n)) 2 = S (Nat.div n 2).
Proof.
  replace (S (S n)) with (n + 1 * 2)%nat by lia.
  rewrite Nat.div_add by lia. lia.
Qed.

(** The two comprehensions never index past the end: they return every
    other name. *)
Lemma names_groups_evens_odds (l : list string) :
  names_group1 l = Ok (evens l) /\ names_group2 l = Ok (odds l).
Proof.
  unfold names_group1, names_group2.
  induction l as [| a | a b l [IH1 IH2]] using list_pair_ind.
  - split; reflexivity.
  - split; reflexivity.
  - change (length (a :: b :: l)) with (S (S (length l))).
    rewrite half_step. rewrite <- cons_seq, <- seq_shift.
    split.
    + cbn [comprehension].
      change (py_index (a :: b :: l) (2 * 0)) with (Ok a).
      rewrite comprehension_map.
      rewrite (comprehension_ext _ (fun i => py_index l (2 * i)%nat)).
      * rewrite IH1. reflexivity.
      * intros i Hi. apply in_seq in Hi.
        replace (2 * S i)%nat with (S (S (2 * i))) by lia.
        unfold py_index. cbn [nth_error].
        destruct (nth_error l (2 * i)) eqn:Hn; [reflexivity|].
        apply nth_error_None in Hn.
        pose proof (Nat.Div0.mul_div_le (length l) 2). lia.
    + cbn [comprehension].
      change (py_index (a :: b :: l) (2 * 0 + 1)) with (Ok b).
      rewrite comprehension_map.
      rewrite (comprehension_ext _ (fun i => py_index l (2 * i + 1)%nat)).
      * rewrite IH2. reflexivity.
      * intros i Hi. apply in_seq in Hi.
        replace (2 * S i + 1)%nat with (S (S (2 * i + 1))) by lia.
        unfold py_index. cbn [nth_error].
        destruct (nth_error l (2 * i + 1)) eqn:Hn; [reflexivity|].
        apply nth_error_None in Hn.
        pose proof (Nat.Div0.mul_div_le (length l) 2). lia.
Qed.

Lemma evens_odds_length {A : Type} (l : list A) :
  length (evens l) = Nat.div (length l) 2 /\
  length (odds l) = Nat.div (length l) 2.
Proof.
  induction l as [| a | a b l [IH1 IH2]] using list_pair_ind.
  - split; reflexivity.
  - split; reflexivity.
  - change (length (a :: b :: l)) with (S (S (length l))).
    rewrite half_step. simpl. rewrite IH1, IH2. split; reflexivity.
Qed.

Lemma evens_odds_nth {A : Type} (l : list A) (i : nat) :
  (i < Nat.div (length l) 2)%nat ->
  nth_error (evens l) i = nth_error l (2 * i) /\
  nth_error (odds l) i = nth_error l (2 * i + 1).
Proof.
  revert i. induction l as [| a | a b l IH] using list_pair_ind; intros i Hi.
  - simpl in Hi. lia.
  - simpl in Hi. lia.
  - change (length (a :: b :: l)) with (S (S (length l))) in Hi.
    rewrite half_step in Hi. destruct i as [|i].
    + split; reflexivity.
    + replace (2 * S i)%nat with (S (S (2 * i))) by lia.
      replace (S (S (2 * i)) + 1)%nat with (S (S (2 * i + 1))) by lia.
      simpl. apply IH. lia.
Qed.

Lemma interleave_evens_odds {A : Type} (l : list A) :
  interleave (evens l) (odds l) = firstn (2 * Nat.div (length l) 2) l.
Proof.
  induction l as [| a | a b l IH] using list_pair_ind.
  - reflexivity.
  - reflexivity.
  - change (length (a :: b :: l)) with (S (S (length l))).
    rewrite half_step.
    replace (2 * S (Nat.div (length l) 2))%nat
      with (S (S (2 * Nat.div (length l) 2))) by lia.
    simpl. rewrite IH. reflexivity.
Qed.

Lemma evens_odds_perm {A : Type} (l : list A) :
  Permutation (evens l ++ odds l) (firstn (2 * Nat.div (length l) 2) l).
Proof.
  induction l as [| a | a b l IH] using list_pair_ind.
  - reflexivity.
  - reflexivity.
  - change (length (a :: b :: l)) with (S (S (length l))).
    rewrite half_step.
    replace (2 * S (Nat.div (length l) 2))%nat
      with (S (S (2 * Nat.div (length l) 2))) by lia.
    simpl. constructor.
    apply Permutation_sym. apply Permutation_cons_app.
    apply Permutation_sym. exact IH.
Qed.

Lemma even_length_half (n : nat) :
  Nat.even n = true -> (2 * Nat.div n 2)%nat = n.
Proof.
  intros H. apply Nat.even_spec in H. destruct H as [k Hk]. subst n.
  rewrite (Nat.mul_comm 2 k), Nat.div_mul by lia. lia.
Qed.

Lemma odd_length_half (n : nat) :
  Nat.even n = false -> (2 * Nat.div n 2)%nat = (n - 1)%nat.
Proof.
  intros H. rewrite <- Nat.negb_odd in H. apply negb_false_iff in H.
  apply Nat.odd_spec in H. destruct H as [k Hk]. subst n.
  replace (2 * k + 1)%nat with (1 + k * 2)%nat by lia.
  rewrite Nat.div_add by lia. simpl. lia.
Qed.

Lemma firstn_removelast {A : Type} (l : list A) :
  firstn (length l - 1) l = removelast l.
Proof.
  induction l as [|x l IH]; [reflexivity|].
  destruct l as [|y l]; [reflexivity|].
  replace (length (x :: y :: l) - 1)%nat with (S (length (y :: l) - 1))
    by (simpl; lia).
  cbn [firstn]. rewrite IH. reflexivity.
Qed.

(** X1: the two comprehensions never raise: every index they use is
    below the length of [names].  Each group has [len(names) // 2] names,
    and the [i]-th name of the first (second) group is [names[2 * i]]
    ([names[2 * i + 1]]). *)
Theorem names_groups_in_range (l : list string) :
  exists g1 g2,
    names_group1 l = Ok g1 /\ names_group2 l = Ok g2 /\
    length g1 = Nat.div (length l) 2 /\
    length g2 = Nat.div (length l) 2 /\
    forall i, (i < Nat.div (length l) 2)%nat ->
      nth_error g1 i = nth_error l (2 * i) /\
      nth_error g2 i = nth_error l (2 * i + 1).
Proof.
  exists (evens l), (odds l).
  destruct (names_groups_evens_odds l) as [H1 H2].
  destruct (evens_odds_length l) as [L1 L2].
  repeat split; trivial; apply evens_odds_nth; assumption.
Qed.

(** X2: taking the names of the two groups in turn gives the names back
    when their number is even, and all but the last name when it is odd;
    the two groups together are a rearrangement of the names, without the
    last one in the odd case. *)
Theorem names_groups_round_trip (l : list string) :
  exists g1 g2,
    names_group1 l = Ok g1 /\ names_group2 l = Ok g2 /\
    (Nat.even (length l) = true ->
       interleave g1 g2 = l /\ Permutation (g1 ++ g2) l) /\
    (Nat.even (length l) = false ->
       interleave g1 g2 = removelast l /\
       Permutation (g1 ++ g2) (removelast l)).
Proof.
  exists (evens l), (odds l).
  destruct (names_groups_evens_odds l) as [H1 H2].
  split; [exact H1|]. split; [exact H2|]. split.
  - intros He. pose proof (even_length_half _ He) as Hn. split.
    + rewrite interleave_evens_odds, Hn. apply firstn_all.
    + rewrite evens_odds_perm, Hn, firstn_all. reflexivity.
  - intros Ho. pose proof (odd_length_half _ Ho) as Hn.
    pose proof (firstn_removelast l) as Hr.
    split.
    + rewrite interleave_evens_odds, Hn. exact Hr.
    + rewrite evens_odds_perm, Hn, Hr. reflexivity.
Qed.

Lemma distinctb_NoDup (l : list string) : distinctb l = true -> NoDup l.
Proof.
  induction l as [|x l IH]; simpl; intros H; constructor.
  - apply andb_true_iff in H. destruct H as [H _].
    apply negb_true_iff in H. intros Hin.
    assert (Hex : existsb (String.eqb x) l = true).
    { apply existsb_exists. exists x. split; [exact Hin | apply String.eqb_refl]. }
    congruence.
  - apply IH. apply andb_true_iff in H. tauto.
Qed.

Lemma NoDup_app_disjoint {A : Type} (l1 l2 : list A) (a : A) :
  NoDup (l1 ++ l2) -> In a l1 -> In a l2 -> False.
Proof.
  induction l1 as [|x l1 IH]; simpl; intros Hnd H1 H2; [contradiction|].
  inversion Hnd as [|? ? Hx Hnd']; subst. destruct H1 as [H1|H1].
  - subst. apply Hx. apply in_or_app. right. exact H2.
  - apply IH; assumption.
Qed.

(** X3: when the names are distinct, the names of each group are
    distinct and no name is in both groups. *)
Theorem names_groups_disjoint (l : list string) :
  NoDup l ->
  exists g1 g2,
    names_group1 l = Ok g1 /\ names_group2 l = Ok g2 /\
    NoDup g1 /\ NoDup g2 /\
    forall w, In w g1 -> ~ In w g2.
Proof.
  intros Hnd. exists (evens l), (odds l).
  destruct (names_groups_evens_odds l) as [H1 H2].
  assert (Hboth : NoDup (evens l ++ odds l)).
  { apply (Permutation_NoDup (Permutation_sym (evens_odds_perm l))).
    rewrite <- (firstn_skipn (2 * Nat.div (length l) 2) l) in Hnd.
    apply NoDup_app_remove_r in Hnd. exact Hnd. }
  split; [exact H1|]. split; [exact H2|].
  split; [apply (NoDup_app_remove_r _ _ Hboth)|].
  split; [apply (NoDup_app_remove_l _ _ Hboth)|].
  intros w Hw1 Hw2. exact (NoDup_app_disjoint _ _ w Hboth Hw1 Hw2).
Qed.

(** The names of the notebook are distinct. *)
Lemma names_groups_disjoint_witness :
  exists g1 g2,
    names_group1 names = Ok g1 /\ names_group2 names = Ok g2 /\
    NoDup g1 /\ NoDup g2 /\
    forall w, In w g1 -> ~ In w g2.
Proof.
  apply (names_groups_disjoint names).
  apply distinctb_NoDup. vm_compute. reflexivity.
Defined.

(** The two groups of the notebook. *)
Example notebook_groups :
  names_group1 names
  = Ok ["Emily"; "Anne"; "Jill"; "Allison"; "Laurie"; "Sarah"; "Meredith";
        "Carrie"; "Kristen"; "Todd"; "Neil"; "Geoffrey"; "Brett"; "Brendan";
        "Greg"; "Matthew"; "Jay"; "Brad"]%string
  /\ names_group2 names
     = Ok ["Aisha"; "Keisha"; "Tamika"; "Lakisha"; "Tanisha"; "Latoya";
           "Kenya"; "Latonya"; "Ebony"; "Rasheed"; "Tremayne"; "Kareem";
           "Darnell"; "Tyrone"; "Hakim"; "Jamal"; "Leroy"; "Jermaine"]%string.
Proof. split; reflexivity. Qed.

(** ** Unknown words *)

Lemma known_In (E : WordEmbedding) (w : string) :
  known E w = true <-> In w (words E).
Proof.
  unfold known. split.
  - destruct (position w (words E)) as [i|] eqn:Hp; [|discriminate].
    intros _. eapply nth_error_In. apply position_nth. exact Hp.
  - intros Hin. destruct (position_In w (words E) Hin) as [i [Hi _]].
    rewrite Hi. reflexivity.
Qed.

Lemma vector_of_unknown (E : WordEmbedding) (w : string) :
  known E w = false -> vector_of E w = Raise (UnknownWordError w).
Proof.
  unfold known, vector_of, index_of.
  destruct (position w (words E)); [discriminate | reflexivity].
Qed.

Lemma vector_of_known (D : nat) (E : WordEmbedding) (w : string) :
  wf_table D E -> known E w = true ->
  vector_of E w = Ok (map Fin (row E w)) /\ length (row E w) = D.
Proof.
  intros Hwf Hk. apply known_In in Hk.
  destruct (vocabulary_row D E w Hwf Hk) as [i [r [Hp [Hn Hr]]]].
  assert (Hrow : row E w = r).
  { unfold row. rewrite Hp. apply nth_error_nth. exact Hn. }
  rewrite Hrow. split; [|exact Hr].
  apply (vector_of_position E w i r Hp Hn).
Qed.

Lemma first_unknown_none (E : WordEmbedding) (l : list string) :
  first_unknown E l = None <-> in_vocabulary E l.
Proof.
  unfold first_unknown, in_vocabulary. split.
  - intros H. apply Forall_forall. intros w Hw.
    apply known_In. pose proof (find_none _ _ H w Hw) as Hn.
    apply negb_false_iff in Hn. exact Hn.
  - intros H. rewrite Forall_forall in H.
    destruct (find (fun w => negb (known E w)) l) as [w|] eqn:Hf; [|reflexivity].
    apply find_some in Hf. destruct Hf as [Hin Hn].
    apply negb_true_iff in Hn. apply H in Hin. apply known_In in Hin.
    congruence.
Qed.

Lemma sum_from_first_unknown (D : nat) (E : WordEmbedding) (l : list string)
  (w : string) :
  wf_table D E -> first_unknown E l = Some w ->
  forall acc, sum_from E l acc = Raise (UnknownWordError w).
Proof.
  intros Hwf. unfold first_unknown.
  induction l as [|x l IH]; simpl; intros Hf acc; [discriminate|].
  destruct (known E x) eqn:Hk; simpl in Hf.
  - destruct (vector_of_known D E x Hwf Hk) as [Hv _]. rewrite Hv. simpl.
    apply IH. exact Hf.
  - inversion Hf; subst. rewrite (vector_of_unknown E w Hk). reflexivity.
Qed.

Lemma py_sum_known (D : nat) (E : WordEmbedding) (l : list string) :
  wf_table D E -> first_unknown E l = None ->
  py_sum E l = Ok (group_sum (rows E l)).
Proof.
  intros Hwf Hn. apply first_unknown_none in Hn.
  destruct (vocabulary_rows D E l Hwf Hn) as [Hrows _].
  apply py_sum_rows. exact Hrows.
Qed.

Lemma first_unknown_app (E : WordEmbedding) (l1 l2 : list string) :
  first_unknown E (l1 ++ l2)
  = match first_unknown E l1 with
    | Some w => Some w
    | None => first_unknown E l2
    end.
Proof.
  unfold first_unknown. induction l1 as [|x l1 IH]; simpl; [reflexivity|].
  destruct (negb (known E x)); [reflexivity | exact IH].
Qed.

(** X4: the second group is summed first, then the first.  [v_racial]
    fails with [UnknownWordError] for the first word the table does not
    know in the second group followed by the first group, and returns
    the direction of the two groups' rows when there is no such word. *)
Theorem v_racial_first_unknown
  (D : nat) (E : WordEmbedding) (group1 group2 : list string) :
  wf_table D E ->
  v_racial E group1 group2
  = match first_unknown E (group2 ++ group1) with
    | Some w => Raise (UnknownWordError w)
    | None => Ok (direction (rows E group1) (rows E group2))
    end.
Proof.
  intros Hwf. rewrite first_unknown_app. unfold v_racial, centroid_diff.
  destruct (first_unknown E group2) as [w2|] eqn:H2.
  - unfold py_sum. rewrite (sum_from_first_unknown D E group2 w2 Hwf H2).
    reflexivity.
  - rewrite (py_sum_known D E group2 Hwf H2).
    destruct (first_unknown E group1) as [w1|] eqn:H1.
    + unfold py_sum. rewrite (sum_from_first_unknown D E group1 w1 Hwf H1).
      reflexivity.
    + rewrite (py_sum_known D E group1 Hwf H1). reflexivity.
Qed.

(** In the scenario, with an unknown word in each group, the one of the
    second group is reported. *)
Lemma v_racial_first_unknown_witness :
  v_racial scenario ["prince"; "she"]%string ["he"; "duke"]%string
  = Raise (UnknownWordError "duke").
Proof.
  exact (v_racial_first_unknown 2 scenario ["prince"; "she"]%string
           ["he"; "duke"]%string scenario_wf).
Defined.

Lemma scored_known (D : nat) (E : WordEmbedding) (v : vec) (l : list string) :
  wf_table D E -> length v = D -> first_unknown E l = None ->
  scored E v l = Ok (projections E v l).
Proof.
  intros Hwf Hlen. unfold first_unknown, projections.
  induction l as [|x l IH]; simpl; intros Hf; [reflexivity|].
  destruct (known E x) eqn:Hk; simpl in Hf; [|discriminate].
  destruct (vector_of_known D E x Hwf Hk) as [Hv Hr]. rewrite Hv. simpl.
  unfold np_dot. rewrite length_map, Hr, Hlen, Nat.eqb_refl. simpl.
  rewrite (IH Hf). reflexivity.
Qed.

Lemma scored_first_unknown (D : nat) (E : WordEmbedding) (v : vec)
  (l : list string) (w : string) :
  wf_table D E -> length v = D -> first_unknown E l = Some w ->
  scored E v l = Raise (UnknownWordError w).
Proof.
  intros Hwf Hlen. unfold first_unknown.
  induction l as [|x l IH]; simpl; intros Hf; [discriminate|].
  destruct (known E x) eqn:Hk; simpl in Hf.
  - destruct (vector_of_known D E x Hwf Hk) as [Hv Hr]. rewrite Hv. simpl.
    unfold np_dot. rewrite length_map, Hr, Hlen, Nat.eqb_refl. simpl.
    rewrite (IH Hf). reflexivity.
  - inversion Hf; subst. rewrite (vector_of_unknown E w Hk). reflexivity.
Qed.

(** What [sp] returns for a direction of the table's dimension. *)
Lemma sp_outcome
  (D : nat) (E : WordEmbedding) (v : vec) (candidates : list string) :
  wf_table D E -> length v = D ->
  sp E v candidates
  = match first_unknown E candidates with
    | Some w => Raise (UnknownWordError w)
    | None => Ok (sorted (projections E v candidates))
    end.
Proof.
  intros Hwf Hlen. unfold sp.
  destruct (first_unknown E candidates) as [w|] eqn:Hf.
  - rewrite (scored_first_unknown D E v candidates w Hwf Hlen Hf). reflexivity.
  - rewrite (scored_known D E v candidates Hwf Hlen Hf). reflexivity.
Qed.

(** X6: with a direction whose length is not the table's dimension, [sp]
    fails at the very first candidate -- with [DimensionMismatchError] if
    the table knows it, with [UnknownWordError] otherwise -- and the later
    candidates are not looked at; without candidates the direction is not
    looked at either and the result is the empty list. *)
Theorem sp_wrong_length
  (D : nat) (E : WordEmbedding) (v : vec) :
  wf_table D E -> length v <> D ->
  sp E v [] = Ok [] /\
  forall w rest,
    sp E v (w :: rest)
    = Raise (if known E w then DimensionMismatchError else UnknownWordError w).
Proof.
  intros Hwf Hlen. split; [reflexivity|].
  intros w rest. unfold sp. simpl.
  destruct (known E w) eqn:Hk.
  - destruct (vector_of_known D E w Hwf Hk) as [Hv Hr]. rewrite Hv. simpl.
    unfold np_dot. rewrite length_map, Hr.
    destruct (Nat.eqb_spec D (length v)) as [Heq|Hne]; [congruence|].
    reflexivity.
  - rewrite (vector_of_unknown E w Hk). reflexivity.
Qed.

Lemma sp_wrong_length_witness :
  sp scenario [Fin 1] [] = Ok [] /\
  forall w rest,
    sp scenario [Fin 1] (w :: rest)
    = Raise (if known scenario w then DimensionMismatchError
             else UnknownWordError w).
Proof.
  apply (sp_wrong_length 2 scenario [Fin 1]).
  - exact scenario_wf.
  - simpl. lia.
Defined.

(** ** Sorted lists of the same elements *)

Lemma projections_finite (E : WordEmbedding) (v : vec) (l : list string) :
  Forall is_finite v -> Forall finite_score (projections E v l).
Proof.
  intros Hfin. destruct (finite_vec v Hfin) as [r Hr]. subst v.
  unfold projections. apply Forall_forall. intros p Hp.
  apply in_map_iff in Hp. destruct Hp as [w [Hw _]]. subst p.
  unfold finite_score. simpl. rewrite inner_fin. exact I.
Qed.

Lemma StronglySorted_unique {A : Type} (R : A -> A -> Prop) :
  (forall a b, R a b -> R b a -> a = b) ->
  forall l1 l2,
    StronglySorted R l1 -> StronglySorted R l2 -> Permutation l1 l2 ->
    l1 = l2.
Proof.
  intros Hanti. induction l1 as [|a l1 IH]; intros l2 H1 H2 Hp.
  - apply Permutation_nil in Hp. subst. reflexivity.
  - destruct l2 as [|b l2].
    + apply Permutation_sym, Permutation_nil in Hp. discriminate.
    + inversion H1 as [|? ? S1 A1]; subst. inversion H2 as [|? ? S2 A2]; subst.
      rewrite Forall_forall in A1, A2.
      assert (Hab : a = b).
      { assert (Ha : In a (b :: l2))
          by (eapply Permutation_in; [exact Hp | left; reflexivity]).
        assert (Hb : In b (a :: l1))
          by (eapply Permutation_in;
              [apply Permutation_sym; exact Hp | left; reflexivity]).
        destruct Ha as [Ha|Ha]; [congruence|].
        destruct Hb as [Hb|Hb]; [congruence|].
        apply Hanti; [apply A1; exact Hb | apply A2; exact Ha]. }
      subst b. f_equal. apply IH; trivial.
      eapply Permutation_cons_inv. exact Hp.
Qed.

(** ** The length of the direction does not matter to the order *)

Lemma tuple_ltb_scale (c : R) (a b : num * string) :
  0 < c -> finite_score a -> finite_score b ->
  tuple_ltb (scale_score c a) (scale_score c b) = tuple_ltb a b.
Proof.
  intros Hc. destruct a as [[x| |] w1], b as [[y| |] w2];
    unfold finite_score; simpl; try tauto.
  intros _ _. unfold tuple_ltb, scale_score. simpl.
  assert (He : Req_b (c * x) (c * y) = Req_b x y).
  { destruct (Req_b_spec x y) as [H|H].
    - apply Req_b_true. subst. reflexivity.
    - apply Req_b_false. intros H'. apply H. nra. }
  assert (Hl : Rlt_b (c * x) (c * y) = Rlt_b x y).
  { destruct (Rlt_b_spec x y) as [H|H].
    - apply Rlt_b_true. nra.
    - apply Rlt_b_false. nra. }
  rewrite He, Hl. reflexivity.
Qed.

Lemma scale_score_finite (c : R) (p : num * string) :
  finite_score p -> finite_score (scale_score c p).
Proof. destruct p as [[x| |] w]; unfold finite_score; simpl; tauto. Qed.

Lemma insert_scale (c : R) (x : num * string) (l : list (num * string)) :
  0 < c -> finite_score x -> Forall finite_score l ->
  insert (scale_score c x) (map (scale_score c) l)
  = map (scale_score c) (insert x l).
Proof.
  intros Hc Hx Hl. induction Hl as [|y l Hy Hl IH]; simpl; [reflexivity|].
  rewrite (tuple_ltb_scale c y x Hc Hy Hx).
  destruct (tuple_ltb y x); simpl; [rewrite IH|]; reflexivity.
Qed.

Lemma sorted_scale (c : R) (l : list (num * string)) :
  0 < c -> Forall finite_score l ->
  sorted (map (scale_score c) l) = map (scale_score c) (sorted l).
Proof.
  intros Hc Hl. induction Hl as [|x l Hx Hl IH]; simpl; [reflexivity|].
  rewrite IH. apply insert_scale; trivial. apply sorted_finite. exact Hl.
Qed.

Lemma dot_scale_r (c : R) (u v : list R) :
  Spec.dot u (map (Rmult c) v) = c * Spec.dot u v.
Proof.
  revert v. induction u as [|x u IH]; intros [|y v]; simpl; try lra.
  rewrite IH. lra.
Qed.

Lemma projections_scale (c : R) (E : WordEmbedding) (r : list R)
  (l : list string) :
  projections E (np_scale c (map Fin r)) l
  = map (scale_score c) (projections E (map Fin r) l).
Proof.
  unfold projections.
  rewrite (map_map (fun w => (inner (map Fin (row E w)) (map Fin r), w))
             (scale_score c)).
  apply map_ext. intros w.
  unfold scale_score, np_scale. simpl. rewrite map_map.
  change (map (fun x => num_mul (Fin c) (Fin x)) r)
    with (map (fun x => Fin (c * x)) r).
  rewrite <- (map_map (Rmult c) Fin), !inner_fin, dot_scale_r. reflexivity.
Qed.

(** X8: multiplying the direction by a positive number (so also dividing
    it by its norm) multiplies every score by that number and leaves the
    order of the words in the ranking as it is. *)
Theorem sp_scale_direction
  (c : R) (D : nat) (E : WordEmbedding) (v : vec) (candidates : list string) :
  0 < c ->
  wf_table D E -> length v = D -> Forall is_finite v ->
  in_vocabulary E candidates ->
  exists out,
    sp E v candidates = Ok out /\
    sp E (np_scale c v) candidates = Ok (map (scale_score c) out) /\
    map snd (map (scale_score c) out) = map snd out.
Proof.
  intros Hc Hwf Hlen Hfin Hin.
  pose proof (projections_finite E v candidates Hfin) as Hpf.
  destruct (finite_vec v Hfin) as [r Hr]. subst v.
  apply first_unknown_none in Hin.
  exists (sorted (projections E (map Fin r) candidates)).
  rewrite (sp_outcome D E _ candidates Hwf Hlen), Hin.
  split; [reflexivity|]. split.
  - rewrite (sp_outcome D E _ candidates Hwf), Hin.
    + rewrite projections_scale, sorted_scale by assumption. reflexivity.
    + unfold np_scale. rewrite length_map. exact Hlen.
  - rewrite map_map. reflexivity.
Qed.

Lemma sp_scale_direction_witness :
  exists out,
    sp scenario [Fin (-1); Fin 1] ["queen"; "king"]%string = Ok out /\
    sp scenario (np_scale 3 [Fin (-1); Fin 1]) ["queen"; "king"]%string
    = Ok (map (scale_score 3) out) /\
    map snd (map (scale_score 3) out) = map snd out.
Proof.
  apply (sp_scale_direction 3 2 scenario).
  - lra.
  - exact scenario_wf.
  - reflexivity.
  - repeat constructor.
  - apply scenario_vocabulary; reflexivity.
Defined.

(** ** Slices of sorted lists *)

Lemma StronglySorted_app_le {A : Type} (R : A -> A -> Prop) (l1 l2 : list A) :
  StronglySorted R (l1 ++ l2) ->
  forall a b, In a l1 -> In b l2 -> R a b.
Proof.
  induction l1 as [|x l1 IH]; simpl; intros Hs a b Ha Hb; [contradiction|].
  inversion Hs as [|? ? Hs' Hall]; subst. destruct Ha as [Ha|Ha].
  - subst. rewrite Forall_forall in Hall. apply Hall.
    apply in_or_app. right. exact Hb.
  - apply IH; assumption.
Qed.

(** ** The shape of the group direction *)

Lemma sum_from_shape (E : WordEmbedding) (l : list string) :
  forall acc s,
    (acc = Scalar (Fin 0) \/ exists v, acc = Arr (map Fin v)) ->
    sum_from E l acc = Ok s ->
    s = Scalar (Fin 0) \/ exists v, s = Arr (map Fin v).
Proof.
  induction l as [|w l IH]; simpl; intros acc s Hacc Hs.
  - inversion Hs; subst. exact Hacc.
  - destruct (vector_of_cases E w) as [[r Hr] | [Hr | [i Hr]]];
      rewrite Hr in Hs; simpl in Hs; try discriminate.
    apply (IH (np_add acc (Arr (map Fin r))) s); [|exact Hs].
    right. destruct Hacc as [Hacc | [v Hacc]]; subst acc.
    + rewrite add_zero_fin. exists r. reflexivity.
    + rewrite np_add_fin. eexists. reflexivity.
Qed.

Lemma normalize_scalar_nan : normalize (Scalar NaN) = Scalar NaN.
Proof. reflexivity. Qed.

Lemma settled_normalize_sum (s : ndarray) :
  (s = Scalar (Fin 0) \/ exists v, s = Arr (map Fin v)) ->
  settled (normalize s).
Proof.
  intros [Hs | [v Hs]]; subst s.
  - right. right. exact normalize_empty_sum.
  - destruct (Req_EM_T (Spec.magnitude v) 0) as [Hz|Hnz].
    + right. left. exists (length v).
      rewrite (normalize_zero v Hz), map_const_repeat. reflexivity.
    + left. exists (Spec.unit v). apply normalize_fin. exact Hnz.
Qed.

Lemma zip_nan_r (f : num -> num -> num) (u : vec) (n : nat) :
  (forall x, f x NaN = NaN) ->
  zip_with f u (repeat NaN n) = repeat NaN (Nat.min (length u) n).
Proof.
  intros Hf. revert n. induction u as [|x u IH]; intros [|n]; simpl; trivial.
  rewrite Hf, IH. reflexivity.
Qed.

Lemma zip_nan_l (f : num -> num -> num) (u : vec) (n : nat) :
  (forall x, f NaN x = NaN) ->
  zip_with f (repeat NaN n) u = repeat NaN (Nat.min n (length u)).
Proof.
  intros Hf. revert u. induction n as [|n IH]; intros [|x u]; simpl; trivial.
  rewrite Hf, IH. reflexivity.
Qed.

Lemma num_sub_nan_r (x : num) : num_sub x NaN = NaN.
Proof. destruct x; reflexivity. Qed.

Lemma settled_sub (a b : ndarray) :
  settled a -> settled b -> settled (np_sub a b).
Proof.
  intros [[u Ha] | [[n Ha] | Ha]] [[v Hb] | [[m Hb] | Hb]]; subst a b.
  - left. rewrite np_sub_fin. eexists. reflexivity.
  - right. left. unfold np_sub. simpl.
    rewrite (zip_nan_r num_sub _ m num_sub_nan_r). eexists. reflexivity.
  - right. left. rewrite array_sub_nan. eexists. reflexivity.
  - right. left. unfold np_sub. simpl.
    rewrite (zip_nan_l num_sub _ n (fun x => eq_refl)). eexists. reflexivity.
  - right. left. unfold np_sub. simpl.
    rewrite (zip_nan_l num_sub _ n (fun x => eq_refl)). eexists. reflexivity.
  - right. left. rewrite array_sub_nan. eexists. reflexivity.
  - right. left. rewrite nan_sub_array. eexists. reflexivity.
  - right. left. rewrite nan_sub_array. eexists. reflexivity.
  - right. right. reflexivity.
Qed.

Lemma unit_unit (v : list R) :
  Spec.magnitude v <> 0 -> Spec.unit (Spec.unit v) = Spec.unit v.
Proof.
  intros Hn. unfold Spec.unit at 1. rewrite (magnitude_unit v Hn).
  rewrite <- (map_id (Spec.unit v)) at 2. apply map_ext. intros x. field.
Qed.

(** Dividing by the norm a second time changes nothing. *)
Lemma normalize_settled (a : ndarray) :
  settled a -> settled (normalize a) /\ normalize (normalize a) = normalize a.
Proof.
  intros [[v Ha] | [[n Ha] | Ha]]; subst a.
  - destruct (Req_EM_T (Spec.magnitude v) 0) as [Hz|Hnz].
    + rewrite (normalize_zero v Hz), map_const_repeat, normalize_nan_array.
      split; [right; left; eexists; reflexivity | reflexivity].
    + rewrite (normalize_fin v Hnz).
      split; [left; eexists; reflexivity|].
      rewrite normalize_fin by (rewrite (magnitude_unit v Hnz); lra).
      rewrite (unit_unit v Hnz). reflexivity.
  - rewrite !normalize_nan_array.
    split; [right; left; eexists; reflexivity | reflexivity].
  - rewrite !normalize_scalar_nan. split; [right; right|]; reflexivity.
Qed.

(** X10: in exact arithmetic, whatever the table and the groups, a value
    returned by [v_racial] is an array of numbers, an array with nan in
    every entry, or the scalar nan -- never an infinity, never nan in some
    entries only -- and dividing it by its norm once more returns it
    unchanged. *)
Theorem v_racial_settled
  (E : WordEmbedding) (group1 group2 : list string) (d : ndarray) :
  v_racial E group1 group2 = Ok d ->
  settled d /\ normalize d = d.
Proof.
  unfold v_racial, centroid_diff, py_sum. intros H.
  destruct (sum_from E group2 (Scalar (Fin 0))) as [s0|e0] eqn:H0;
    simpl in H; [|discriminate].
  destruct (sum_from E group1 (Scalar (Fin 0))) as [s1|e1] eqn:H1;
    simpl in H; [|discriminate].
  inversion H; subst d. clear H.
  pose proof (sum_from_shape E group2 _ s0 (or_introl eq_refl) H0) as S0.
  pose proof (sum_from_shape E group1 _ s1 (or_introl eq_refl) H1) as S1.
  pose proof (settled_sub _ _ (settled_normalize_sum s1 S1)
                (settled_normalize_sum s0 S0)) as Hsub.
  exact (normalize_settled _ Hsub).
Qed.

Lemma v_racial_settled_witness :
  settled (Arr [NaN; NaN]) /\ normalize (Arr [NaN; NaN]) = Arr [NaN; NaN].
Proof.
  apply (v_racial_settled scenario ["she"%string] ["she"%string]).
  apply she_she_direction.
Defined.

(** X11: for two non-empty groups of vocabulary words [v_racial] returns
    an array of the table's dimension (whether of numbers or of nan), so
    that ranking vocabulary words along it never fails: [sp] returns one
    entry per candidate. *)
Theorem v_racial_dimension
  (D : nat) (E : WordEmbedding) (group1 group2 candidates : list string) :
  wf_table D E ->
  group1 <> [] -> group2 <> [] ->
  in_vocabulary E group1 -> in_vocabulary E group2 ->
  in_vocabulary E candidates ->
  exists v ranking,
    v_racial E group1 group2 = Ok (Arr v) /\ length v = D /\
    sp E v candidates = Ok ranking /\
    length ranking = length candidates.
Proof.
  intros Hwf N1 N2 V1 V2 Vc.
  destruct (vocabulary_rows D E group1 Hwf V1) as [R1 D1].
  destruct (vocabulary_rows D E group2 Hwf V2) as [R2 D2].
  destruct (v_racial_rows E group1 group2 _ _ R1 R2) as [_ Hv].
  destruct (normalize_group_array D (rows E group1)
              (rows_nonempty E group1 N1) D1) as [a [Ha La]].
  destruct (normalize_group_array D (rows E group2)
              (rows_nonempty E group2 N2) D2) as [b [Hb Lb]].
  set (x := zip_with num_sub a b).
  assert (Lx : length x = D).
  { unfold x. rewrite zip_with_length; lia. }
  exists (map (fun e => num_div e (norm (Arr x))) x).
  exists (sorted (projections E (map (fun e => num_div e (norm (Arr x))) x)
                    candidates)).
  assert (Lv : length (map (fun e => num_div e (norm (Arr x))) x) = D)
    by (rewrite length_map; exact Lx).
  split; [|split; [exact Lv|split]].
  - rewrite Hv. unfold direction. rewrite Ha, Hb. reflexivity.
  - apply first_unknown_none in Vc.
    rewrite (sp_outcome D E _ candidates Hwf Lv), Vc. reflexivity.
  - rewrite (Permutation_length (sorted_perm _)). unfold projections.
    apply length_map.
Qed.

Lemma v_racial_dimension_witness :
  exists v ranking,
    v_racial scenario ["she"%string] ["she"%string] = Ok (Arr v) /\
    length v = 2%nat /\
    sp scenario v ["king"; "queen"]%string = Ok ranking /\
    length ranking = length ["king"; "queen"]%string.
Proof.
  apply (v_racial_dimension 2 scenario).
  - exact scenario_wf.
  - discriminate.
  - discriminate.
  - apply scenario_vocabulary; reflexivity.
  - apply scenario_vocabulary; reflexivity.
  - apply scenario_vocabulary; reflexivity.
Defined.

(** ** Scores along the group direction *)

Lemma dot_comm (u v : list R) : Spec.dot u v = Spec.dot v u.
Proof.
  revert v. induction u as [|x u IH]; intros [|y v]; simpl; trivial.
  rewrite IH. lra.
Qed.

Lemma dot_vsub_r (u a b : list R) :
  length a = length b ->
  Spec.dot u (Spec.vsub a b) = Spec.dot u a - Spec.dot u b.
Proof.
  unfold Spec.vsub. revert a b.
  induction u as [|x u IH]; intros [|y a] [|z b]; simpl; intros H;
    try discriminate; try lra.
  rewrite IH by lia. lra.
Qed.

Lemma dot_div_r (n : R) (u v : list R) :
  Spec.dot u (map (fun x => x / n) v) = Spec.dot u v / n.
Proof.
  revert v. induction u as [|x u IH]; intros [|y v]; simpl;
    try (unfold Rdiv; lra).
  rewrite IH. unfold Rdiv. lra.
Qed.

Lemma magnitude_square (v : list R) :
  Spec.magnitude v * Spec.magnitude v = Spec.dot v v.
Proof. unfold Spec.magnitude. apply sqrt_sqrt. apply dot_self_nonneg. Qed.

Lemma unit_length (v : list R) : length (Spec.unit v) = length v.
Proof. unfold Spec.unit. apply length_map. Qed.

Lemma dot_unit_self (v : list R) :
  Spec.magnitude v <> 0 -> Spec.dot (Spec.unit v) (Spec.unit v) = 1.
Proof.
  intros Hn. rewrite <- magnitude_square, (magnitude_unit v Hn). lra.
Qed.

(** The direction of two unit vectors of one length scores the first at
    half the distance between them, and the second at minus that. *)
Lemma unit_difference_scores (a b : list R) :
  length a = length b ->
  Spec.dot a a = 1 -> Spec.dot b b = 1 ->
  Spec.magnitude (Spec.vsub a b) <> 0 ->
  Spec.dot a (Spec.unit (Spec.vsub a b)) = Spec.magnitude (Spec.vsub a b) / 2 /\
  Spec.dot b (Spec.unit (Spec.vsub a b)) = - (Spec.magnitude (Spec.vsub a b) / 2).
Proof.
  intros Hlen Ha Hb Hn.
  set (n := Spec.magnitude (Spec.vsub a b)) in *.
  assert (Hsq : n * n = 2 - 2 * Spec.dot a b).
  { unfold n. rewrite magnitude_square.
    rewrite dot_vsub_r by exact Hlen.
    rewrite (dot_comm (Spec.vsub a b) a), (dot_comm (Spec.vsub a b) b).
    rewrite !dot_vsub_r by exact Hlen.
    rewrite (dot_comm b a), Ha, Hb. lra. }
  unfold Spec.unit. fold n. rewrite !dot_div_r.
  rewrite !dot_vsub_r by exact Hlen. rewrite (dot_comm b a), Ha, Hb.
  split; field_simplify_eq; try exact Hn; nra.
Qed.

(** X12: in the regular case of C1 the returned direction separates the
    two groups evenly: the unit centroid of the first group scores half
    the distance between the two unit centroids on it, a positive number,
    and the unit centroid of the second group scores minus that. *)
Theorem v_racial_separates
  (D : nat) (E : WordEmbedding) (group1 group2 : list string) :
  wf_table D E ->
  group1 <> [] -> group2 <> [] ->
  in_vocabulary E group1 -> in_vocabulary E group2 ->
  Spec.magnitude (Spec.vsum (rows E group1)) <> 0 ->
  Spec.magnitude (Spec.vsum (rows E group2)) <> 0 ->
  Spec.magnitude
    (Spec.vsub (Spec.unit (Spec.vsum (rows E group1)))
               (Spec.unit (Spec.vsum (rows E group2)))) <> 0 ->
  exists (a b d : list R) (s : R),
    unit_centroid E group1 = Ok (Arr (map Fin a)) /\
    unit_centroid E group2 = Ok (Arr (map Fin b)) /\
    v_racial E group1 group2 = Ok (Arr (map Fin d)) /\
    np_dot (map Fin a) (map Fin d) = Ok (Fin s) /\
    np_dot (map Fin b) (map Fin d) = Ok (Fin (- s)) /\
    0 < s /\ s = Spec.magnitude (Spec.vsub a b) / 2.
Proof.
  intros Hwf N1 N2 V1 V2 M1 M2 Md.
  destruct (vocabulary_rows D E group1 Hwf V1) as [R1 D1].
  destruct (vocabulary_rows D E group2 Hwf V2) as [R2 D2].
  pose proof (rows_nonempty E group1 N1) as Q1.
  pose proof (rows_nonempty E group2 N2) as Q2.
  set (a := Spec.unit (Spec.vsum (rows E group1))) in *.
  set (b := Spec.unit (Spec.vsum (rows E group2))) in *.
  assert (La : length a = D)
    by (unfold a; rewrite unit_length; apply vsum_length; assumption).
  assert (Lb : length b = D)
    by (unfold b; rewrite unit_length; apply vsum_length; assumption).
  destruct (unit_difference_scores a b) as [Sa Sb];
    [lia | apply dot_unit_self; exact M1 | apply dot_unit_self; exact M2
     | exact Md |].
  exists a, b, (Spec.unit (Spec.vsub a b)), (Spec.magnitude (Spec.vsub a b) / 2).
  assert (Ld : length (Spec.unit (Spec.vsub a b)) = D).
  { rewrite unit_length. unfold Spec.vsub. rewrite zip_with_length; lia. }
  split; [|split; [|split; [|split; [|split; [|split]]]]].
  - unfold unit_centroid. rewrite (py_sum_rows E group1 _ R1). simpl.
    rewrite (group_sum_nonempty _ Q1), (normalize_fin _ M1). reflexivity.
  - unfold unit_centroid. rewrite (py_sum_rows E group2 _ R2). simpl.
    rewrite (group_sum_nonempty _ Q2), (normalize_fin _ M2). reflexivity.
  - destruct (v_racial_rows E group1 group2 _ _ R1 R2) as [_ Hv].
    destruct (direction_regular _ _ Q1 Q2 M1 M2 Md) as [Hd _].
    rewrite Hv, Hd. reflexivity.
  - unfold np_dot. rewrite !length_map, La, Ld, Nat.eqb_refl, inner_fin, Sa.
    reflexivity.
  - unfold np_dot. rewrite !length_map, Lb, Ld, Nat.eqb_refl, inner_fin, Sb.
    reflexivity.
  - pose proof (sqrt_pos (Spec.dot (Spec.vsub a b) (Spec.vsub a b))) as Hp.
    fold (Spec.magnitude (Spec.vsub a b)) in Hp. lra.
  - reflexivity.
Qed.

Lemma v_racial_separates_witness :
  exists (a b d : list R) (s : R),
    unit_centroid scenario ["she"%string] = Ok (Arr (map Fin a)) /\
    unit_centroid scenario ["he"%string] = Ok (Arr (map Fin b)) /\
    v_racial scenario ["she"%string] ["he"%string] = Ok (Arr (map Fin d)) /\
    np_dot (map Fin a) (map Fin d) = Ok (Fin s) /\
    np_dot (map Fin b) (map Fin d) = Ok (Fin (- s)) /\
    0 < s /\ s = Spec.magnitude (Spec.vsub a b) / 2.
Proof.
  apply (v_racial_separates 2 scenario).
  - exact scenario_wf.
  - discriminate.
  - discriminate.
  - apply scenario_vocabulary; reflexivity.
  - apply scenario_vocabulary; reflexivity.
  - change (Spec.magnitude [0; 1] <> 0). rewrite magnitude_she. lra.
  - change (Spec.magnitude [1; 0] <> 0). rewrite magnitude_he. lra.
  - change (Spec.magnitude (Spec.vsub (Spec.unit [0; 1]) (Spec.unit [1; 0])) <> 0).
    rewrite (proj2 she_he_direction).
    pose proof sqrt2_bounds. lra.
Defined.

(** The product with a unit vector is at most the magnitude. *)
Lemma dot_unit_bound (u d : list R) :
  length u = length d -> Spec.dot d d = 1 ->
  Rabs (Spec.dot u d) <= Spec.magnitude u.
Proof.
  intros Hlen Hd.
  set (s := Spec.dot u d).
  assert (Hexp : forall u' d', length u' = length d' ->
            Spec.dot (zip_with (fun x y => x - s * y) u' d')
                     (zip_with (fun x y => x - s * y) u' d')
            = Spec.dot u' u' - 2 * s * Spec.dot u' d'
              + s * s * Spec.dot d' d').
  { induction u' as [|x u' IH]; intros [|y d'] H; simpl in *;
      try discriminate; try lra.
    rewrite IH by lia. lra. }
  pose proof (dot_self_nonneg (zip_with (fun x y => x - s * y) u d)) as Hpos.
  rewrite (Hexp u d Hlen), Hd in Hpos. fold s in Hpos.
  assert (Hsq : s * s <= Spec.dot u u) by lra.
  rewrite <- sqrt_Rsqr_abs. unfold Spec.magnitude.
  apply sqrt_le_1; [apply Rle_0_sqr | apply dot_self_nonneg |].
  unfold Rsqr. exact Hsq.
Qed.

(** X13: in the regular case of C1, ranking vocabulary words along the
    returned direction gives every word a score that is a number and is,
    in absolute value, at most the Euclidean norm of the word's vector. *)
Theorem v_racial_scores_bounded
  (D : nat) (E : WordEmbedding) (group1 group2 candidates : list string) :
  wf_table D E ->
  group1 <> [] -> group2 <> [] ->
  in_vocabulary E group1 -> in_vocabulary E group2 ->
  Spec.magnitude (Spec.vsum (rows E group1)) <> 0 ->
  Spec.magnitude (Spec.vsum (rows E group2)) <> 0 ->
  Spec.magnitude
    (Spec.vsub (Spec.unit (Spec.vsum (rows E group1)))
               (Spec.unit (Spec.vsum (rows E group2)))) <> 0 ->
  in_vocabulary E candidates ->
  exists (d : list R) (ranking : list (num * string)),
    v_racial E group1 group2 = Ok (Arr (map Fin d)) /\
    sp E (map Fin d) candidates = Ok ranking /\
    forall s w, In (s, w) ranking ->
      In w candidates /\
      exists x, s = Fin x /\ Rabs x <= Spec.magnitude (row E w).
Proof.
  intros Hwf N1 N2 V1 V2 M1 M2 Md Vc.
  destruct (vocabulary_rows D E group1 Hwf V1) as [R1 D1].
  destruct (vocabulary_rows D E group2 Hwf V2) as [R2 D2].
  pose proof (rows_nonempty E group1 N1) as Q1.
  pose proof (rows_nonempty E group2 N2) as Q2.
  destruct (v_racial_rows E group1 group2 _ _ R1 R2) as [_ Hv].
  destruct (direction_regular _ _ Q1 Q2 M1 M2 Md) as [Hd _].
  set (d := Spec.from_groups (rows E group1) (rows E group2)) in *.
  assert (Ld : length d = D).
  { unfold d, Spec.from_groups. rewrite unit_length. unfold Spec.vsub.
    rewrite zip_with_length; rewrite !unit_length;
      rewrite !(vsum_length D) by assumption; reflexivity. }
  assert (Hunit : Spec.dot d d = 1).
  { unfold d, Spec.from_groups. apply dot_unit_self. exact Md. }
  exists d, (sorted (projections E (map Fin d) candidates)).
  split; [rewrite Hv, Hd; reflexivity|].
  pose proof Vc as Vc'. apply first_unknown_none in Vc'.
  split.
  - rewrite (sp_outcome D E _ candidates Hwf), Vc'; [reflexivity|].
    rewrite length_map. exact Ld.
  - intros s w Hin.
    apply (Permutation_in _ (sorted_perm _)) in Hin.
    unfold projections in Hin. apply in_map_iff in Hin.
    destruct Hin as [w' [Heq Hw]]. inversion Heq; subst w'. clear Heq.
    split; [exact Hw|].
    exists (Spec.dot (row E w) d). rewrite inner_fin.
    split; [reflexivity|].
    apply dot_unit_bound; [|exact Hunit].
    unfold in_vocabulary in Vc. rewrite Forall_forall in Vc.
    destruct (vector_of_known D E w Hwf (proj2 (known_In E w) (Vc w Hw)))
      as [_ Hr].
    lia.
Qed.

Lemma v_racial_scores_bounded_witness :
  exists (d : list R) (ranking : list (num * string)),
    v_racial scenario ["she"%string] ["he"%string] = Ok (Arr (map Fin d)) /\
    sp scenario (map Fin d) ["king"; "queen"]%string = Ok ranking /\
    forall s w, In (s, w) ranking ->
      In w ["king"; "queen"]%string /\
      exists x, s = Fin x /\ Rabs x <= Spec.magnitude (row scenario w).
Proof.
  apply (v_racial_scores_bounded 2 scenario).
  - exact scenario_wf.
  - discriminate.
  - discriminate.
  - apply scenario_vocabulary; reflexivity.
  - apply scenario_vocabulary; reflexivity.
  - change (Spec.magnitude [0; 1] <> 0). rewrite magnitude_she. lra.
  - change (Spec.magnitude [1; 0] <> 0). rewrite magnitude_he. lra.
  - change (Spec.magnitude (Spec.vsub (Spec.unit [0; 1]) (Spec.unit [1; 0])) <> 0).
    rewrite (proj2 she_he_direction).
    pose proof sqrt2_bounds. lra.
  - apply scenario_vocabulary; reflexivity.
Defined.

(** ** The order of the names in a group *)

Lemma vadd_comm (u v : list R) : Spec.vadd u v = Spec.vadd v u.
Proof.
  unfold Spec.vadd. revert v.
  induction u as [|x u IH]; intros [|y v]; simpl; trivial.
  rewrite IH. f_equal. lra.
Qed.

Lemma vadd_swap (a u v : list R) :
  Spec.vadd (Spec.vadd a u) v = Spec.vadd (Spec.vadd a v) u.
Proof.
  unfold Spec.vadd. revert u v.
  induction a as [|x a IH]; intros [|y u] [|z v]; simpl; trivial.
  rewrite IH. f_equal. lra.
Qed.

Lemma fold_vadd_perm (l l' : list (list R)) :
  Permutation l l' ->
  forall a, fold_left Spec.vadd l a = fold_left Spec.vadd l' a.
Proof.
  induction 1 as [| x l l' Hp IH | x y l | l l' l'' H1 IH1 H2 IH2];
    intros a; simpl.
  - reflexivity.
  - apply IH.
  - rewrite vadd_swap. reflexivity.
  - rewrite IH1. apply IH2.
Qed.

Lemma vsum_perm (l l' : list (list R)) :
  Permutation l l' -> Spec.vsum l = Spec.vsum l'.
Proof.
  induction 1 as [| x l l' Hp IH | x y l | l l' l'' H1 IH1 H2 IH2]; simpl.
  - reflexivity.
  - apply fold_vadd_perm. exact Hp.
  - rewrite vadd_comm. reflexivity.
  - rewrite IH1. exact IH2.
Qed.

Lemma group_sum_perm (l l' : list (list R)) :
  Permutation l l' -> group_sum l = group_sum l'.
Proof.
  intros Hp. destruct l as [|x l].
  - apply Permutation_nil in Hp. subst. reflexivity.
  - destruct l' as [|y l'].
    + apply Permutation_sym, Permutation_nil in Hp. discriminate.
    + unfold group_sum. rewrite (vsum_perm _ _ Hp). reflexivity.
Qed.

(** X14: in exact arithmetic the groups are read as collections: giving
    the vocabulary words of either group in another order returns the
    same value. *)
Theorem v_racial_group_order
  (D : nat) (E : WordEmbedding) (group1 group1' group2 group2' : list string) :
  wf_table D E ->
  in_vocabulary E group1 -> in_vocabulary E group2 ->
  Permutation group1 group1' -> Permutation group2 group2' ->
  v_racial E group1' group2' = v_racial E group1 group2 /\
  exists d, v_racial E group1 group2 = Ok d.
Proof.
  intros Hwf V1 V2 P1 P2.
  assert (Hin : forall l l', in_vocabulary E l -> Permutation l l' ->
                  in_vocabulary E l').
  { intros l l' H Hp. unfold in_vocabulary in *. rewrite Forall_forall in *.
    intros w Hw. apply H.
    eapply Permutation_in; [apply Permutation_sym; exact Hp | exact Hw]. }
  destruct (vocabulary_rows D E group1 Hwf V1) as [R1 _].
  destruct (vocabulary_rows D E group2 Hwf V2) as [R2 _].
  destruct (vocabulary_rows D E group1' Hwf (Hin _ _ V1 P1)) as [R1' _].
  destruct (vocabulary_rows D E group2' Hwf (Hin _ _ V2 P2)) as [R2' _].
  destruct (v_racial_rows E group1 group2 _ _ R1 R2) as [_ Hv].
  destruct (v_racial_rows E group1' group2' _ _ R1' R2') as [_ Hv'].
  rewrite Hv, Hv'. split; [|eexists; reflexivity].
  unfold direction, rows.
  rewrite (group_sum_perm _ _ (Permutation_map (row E) P1)).
  rewrite (group_sum_perm _ _ (Permutation_map (row E) P2)).
  reflexivity.
Qed.

Lemma v_racial_group_order_witness :
  v_racial scenario ["queen"; "she"]%string ["king"; "he"]%string
  = v_racial scenario ["she"; "queen"]%string ["he"; "king"]%string /\
  exists d, v_racial scenario ["she"; "queen"]%string ["he"; "king"]%string = Ok d.
Proof.
  apply (v_racial_group_order 2 scenario).
  - exact scenario_wf.
  - apply scenario_vocabulary; reflexivity.
  - apply scenario_vocabulary; reflexivity.
  - apply perm_swap.
  - apply perm_swap.
Defined.

(** ** Reversing a sorted list *)

Lemma num_leb_antisym (a b : num) :
  num_leb a b = true -> num_leb b a = true -> a = b.
Proof.
  unfold num_leb. destruct a as [x|s|], b as [y|t|]; simpl;
    try discriminate;
    try (repeat match goal with c : bool |- _ => destruct c end;
         simpl; intros; try discriminate; reflexivity).
  destruct (Rlt_b_spec x y), (Rlt_b_spec y x), (Req_b_spec x y),
    (Req_b_spec y x); simpl; intros; try discriminate; try lra;
    f_equal; lra.
Qed.

Lemma num_leb_neg (a b : num) :
  num_leb (num_neg b) (num_neg a) = num_leb a b.
Proof.
  unfold num_leb. destruct a as [x|s|], b as [y|t|]; simpl; trivial;
    try (repeat match goal with c : bool |- _ => destruct c end; reflexivity).
  assert (Hl : Rlt_b (- y) (- x) = Rlt_b x y).
  { destruct (Rlt_b_spec x y); [apply Rlt_b_true | apply Rlt_b_false]; lra. }
  assert (He : Req_b (- y) (- x) = Req_b x y).
  { destruct (Req_b_spec x y); [apply Req_b_true | apply Req_b_false]; lra. }
  rewrite Hl, He. reflexivity.
Qed.

Lemma StronglySorted_map {A B : Type} (R : A -> A -> Prop) (R' : B -> B -> Prop)
  (f : A -> B) (l : list A) :
  (forall a b, R a b -> R' (f a) (f b)) ->
  StronglySorted R l -> StronglySorted R' (map f l).
Proof.
  intros Hf. induction 1 as [|a l Hs IH Hall]; simpl; constructor; [exact IH|].
  rewrite Forall_forall in *. intros b Hb. apply in_map_iff in Hb.
  destruct Hb as [x [Hx Hin]]. subst b. apply Hf. apply Hall. exact Hin.
Qed.

Lemma StronglySorted_snoc {A : Type} (R : A -> A -> Prop) (l : list A) (x : A) :
  StronglySorted R l -> Forall (fun a => R a x) l ->
  StronglySorted R (l ++ [x]).
Proof.
  induction 1 as [|a l Hs IH Hall]; simpl; intros Hx.
  - repeat constructor.
  - inversion Hx; subst. constructor; [apply IH; assumption|].
    apply Forall_app. split; [exact Hall | repeat constructor; assumption].
Qed.

Lemma StronglySorted_rev {A : Type} (R : A -> A -> Prop) (l : list A) :
  StronglySorted R l -> StronglySorted (fun a b => R b a) (rev l).
Proof.
  induction 1 as [|a l Hs IH Hall]; simpl; [constructor|].
  apply StronglySorted_snoc; [exact IH|].
  rewrite Forall_forall in *. intros b Hb. apply Hall.
  apply in_rev. exact Hb.
Qed.

(** ** A name without a partner *)

Lemma evens_odds_unpaired {A : Type} (l : list A) (x : A) :
  Nat.even (length l) = true ->
  evens (l ++ [x]) = evens l /\ odds (l ++ [x]) = odds l.
Proof.
  induction l as [| a | a b l IH] using list_pair_ind; intros He.
  - split; reflexivity.
  - discriminate.
  - destruct (IH He) as [H1 H2]. simpl. rewrite H1, H2. split; reflexivity.
Qed.

Lemma v_racial_both_empty (E : WordEmbedding) :
  v_racial E [] [] = Ok (Scalar NaN).
Proof.
  assert (Hnil : rows_of E [] = Some []) by reflexivity.
  destruct (v_racial_rows E _ _ _ _ Hnil Hnil) as [_ Hv].
  rewrite Hv. unfold direction. rewrite normalize_empty_sum. reflexivity.
Qed.

(** X16: a name without a partner at the end of [names] plays no part:
    adding one name to a list of even length leaves the direction, or the
    error, as it was -- the added name is not even looked up -- and with
    a single name both groups are empty and the value is the scalar nan. *)
Theorem racial_direction_unpaired
  (E : WordEmbedding) (l : list string) (x : string) :
  Nat.even (length l) = true ->
  racial_direction E (l ++ [x]) = racial_direction E l /\
  racial_direction E [x] = Ok (Scalar NaN).
Proof.
  intros He. unfold racial_direction.
  destruct (names_groups_evens_odds (l ++ [x])) as [A1 A2].
  destruct (names_groups_evens_odds l) as [B1 B2].
  destruct (evens_odds_unpaired l x He) as [H1 H2].
  rewrite A1, A2, B1, B2, H1, H2. split; [reflexivity|].
  destruct (names_groups_evens_odds [x]) as [C1 C2]. rewrite C1, C2. simpl.
  apply v_racial_both_empty.
Qed.

Lemma racial_direction_unpaired_witness :
  racial_direction scenario
    (["she"; "he"; "queen"; "king"]%string ++ ["duke"%string])%list
  = racial_direction scenario ["she"; "he"; "queen"; "king"]%string /\
  racial_direction scenario ["duke"%string] = Ok (Scalar NaN).
Proof.
  apply (racial_direction_unpaired scenario). reflexivity.
Defined.

(** * The cells in an arbitrary arithmetic *)

(** ** The exact arithmetic is one of them *)

Lemma sum_from_exact (E : WordEmbedding) (names : list string) (acc : ndarray) :
  sum_from_in exact E names acc = sum_from E names acc.
Proof.
  revert acc. induction names as [|w names IH]; intros acc; simpl; [reflexivity|].
  destruct (vector_of E w) as [x|e]; simpl; [apply IH | reflexivity].
Qed.

Lemma v_racial_exact (E : WordEmbedding) (group1 group2 : list string) :
  v_racial_in exact E group1 group2 = v_racial E group1 group2.
Proof.
  unfold v_racial_in, v_racial, centroid_diff_in, centroid_diff, py_sum_in, py_sum.
  rewrite !sum_from_exact. reflexivity.
Qed.

Lemma scored_exact (E : WordEmbedding) (v : vec) (l : list string) :
  scored_in exact E v l = scored E v l.
Proof.
  induction l as [|w l IH]; simpl; [reflexivity|]. rewrite IH. reflexivity.
Qed.

Lemma sp_exact (E : WordEmbedding) (v : vec) (l : list string) :
  sp_in exact E v l = sp E v l.
Proof. unfold sp_in, sp. rewrite scored_exact. reflexivity. Qed.

(** ** The order of numbers *)

(** Splits the numbers of the goal into their cases and settles the
    comparisons of reals that come up. *)
Ltac num_cases :=
  simpl in *; unfold signbit in *;
  repeat match goal with
    | c : bool |- _ => destruct c
    | H : context [Rlt_b ?x ?y] |- _ => destruct (Rlt_b_spec x y)
    | H : context [Req_b ?x ?y] |- _ => destruct (Req_b_spec x y)
    | |- context [Rlt_b ?x ?y] => destruct (Rlt_b_spec x y)
    | |- context [Req_b ?x ?y] => destruct (Req_b_spec x y)
    end;
  simpl in *;
  try discriminate; try contradiction; try reflexivity; try lra;
  try (f_equal; lra);
  try match goal with H : ?x <> ?y |- _ => exfalso; apply H; lra end.

Lemma num_eqb_eq (a b : num) : num_eqb a b = true -> a = b.
Proof. destruct a, b; intros H; num_cases. Qed.

Lemma num_eqb_refl (a : num) : is_number a -> num_eqb a a = true.
Proof. destruct a; intros H; num_cases. Qed.

Lemma num_eqb_number (a : num) : num_eqb a a = true -> is_number a.
Proof. destruct a; intros H; num_cases; exact I. Qed.

Lemma num_ltb_asym (a b : num) : num_ltb a b = true -> num_ltb b a = false.
Proof. destruct a, b; intros H; num_cases. Qed.

Lemma num_ltb_irrefl (a : num) : num_ltb a a = false.
Proof. destruct a; num_cases. Qed.

Lemma num_ltb_neq (a b : num) : num_ltb a b = true -> num_eqb a b = false.
Proof. destruct a, b; intros H; num_cases. Qed.

Lemma num_ltb_trans (a b c : num) :
  num_ltb a b = true -> num_ltb b c = true -> num_ltb a c = true.
Proof. destruct a, b, c; intros H1 H2; num_cases. Qed.

(** Two numbers are equal or one is below the other. *)
Lemma num_total (a b : num) :
  is_number a -> is_number b ->
  num_ltb a b = false -> num_eqb a b = false -> num_ltb b a = true.
Proof. destruct a, b; intros Ha Hb H1 H2; num_cases. Qed.

Lemma num_neg_involutive (a : num) : num_neg (num_neg a) = a.
Proof. destruct a; num_cases. Qed.

Lemma num_neg_number (a : num) : is_number a -> is_number (num_neg a).
Proof. destruct a; simpl; tauto. Qed.

(** ** The order of tuples whose scores are numbers *)

Lemma tuple_ltb_order (a b : num * string) :
  tuple_ltb a b = true -> tuple_order a b.
Proof.
  unfold tuple_ltb, tuple_order.
  destruct (num_eqb (fst a) (fst b)) eqn:He; simpl.
  - destruct (String.eqb (snd a) (snd b)); simpl; [discriminate|].
    intros H. right. split; [apply num_eqb_eq; exact He | apply string_ltb_leb; exact H].
  - intros H. left. exact H.
Qed.

Lemma tuple_not_ltb_order (a b : num * string) :
  number_score a -> number_score b -> tuple_ltb a b = false -> tuple_order b a.
Proof.
  unfold tuple_ltb, tuple_order, number_score. intros Ha Hb.
  destruct (num_eqb (fst a) (fst b)) eqn:He; simpl.
  - apply num_eqb_eq in He.
    destruct (String.eqb_spec (snd a) (snd b)) as [Hw|Hw]; simpl; intros H; right.
    + split; [symmetry; exact He | rewrite Hw; apply string_leb_refl].
    + split; [symmetry; exact He | apply string_not_ltb_leb; exact H].
  - intros H. left. apply num_total; assumption.
Qed.

Lemma tuple_order_trans (a b c : num * string) :
  tuple_order a b -> tuple_order b c -> tuple_order a c.
Proof.
  unfold tuple_order. intros [H1|[H1 L1]] [H2|[H2 L2]].
  - left. eapply num_ltb_trans; eassumption.
  - left. rewrite <- H2. exact H1.
  - left. rewrite H1. exact H2.
  - right. split; [congruence | eapply string_leb_trans; eassumption].
Qed.

Lemma tuple_order_antisym (a b : num * string) :
  tuple_order a b -> tuple_order b a -> a = b.
Proof.
  unfold tuple_order. destruct a as [s1 w1], b as [s2 w2]. simpl.
  intros [H1|[H1 L1]] [H2|[H2 L2]].
  - apply num_ltb_asym in H1. congruence.
  - subst. rewrite num_ltb_irrefl in H1. discriminate.
  - subst. rewrite num_ltb_irrefl in H2. discriminate.
  - subst. f_equal. apply String.leb_antisym; assumption.
Qed.

Lemma tuple_order_scores (a b : num * string) :
  number_score a -> tuple_order a b -> num_leb (fst a) (fst b) = true.
Proof.
  unfold tuple_order, number_score, num_leb. intros Ha [H|[H _]].
  - rewrite H. reflexivity.
  - rewrite <- H, (num_eqb_refl _ Ha). apply orb_true_r.
Qed.

Lemma tuple_order_tie (a b : num * string) :
  tuple_order a b -> num_eqb (fst a) (fst b) = true ->
  String.leb (snd a) (snd b) = true.
Proof.
  unfold tuple_order. intros [H|[_ H]] Heq; [|exact H].
  apply num_ltb_neq in H. congruence.
Qed.

(** ** Sorting tuples whose scores are numbers *)

Lemma insert_hd_order (x a : num * string) (l : list (num * string)) :
  tuple_order a x -> HdRel tuple_order a l -> HdRel tuple_order a (insert x l).
Proof.
  intros Hax Hal. destruct l as [|y l]; simpl.
  - constructor. exact Hax.
  - destruct (tuple_ltb y x); constructor; [inversion Hal; assumption | exact Hax].
Qed.

Lemma insert_order (x : num * string) (l : list (num * string)) :
  number_score x -> Forall number_score l ->
  Sorted tuple_order l -> Sorted tuple_order (insert x l).
Proof.
  intros Hx Hnum Hs. induction Hs as [|y l Hs IH Hhd]; simpl.
  - repeat constructor.
  - inversion Hnum as [|? ? Hy Hl]; subst.
    destruct (tuple_ltb y x) eqn:Hlt.
    + constructor; [apply IH; exact Hl|].
      apply insert_hd_order; [apply tuple_ltb_order; exact Hlt | exact Hhd].
    + constructor; [constructor; assumption|].
      constructor. apply tuple_not_ltb_order; assumption.
Qed.

Lemma sorted_numbers (l : list (num * string)) :
  Forall number_score l -> Forall number_score (sorted l).
Proof.
  intros H. rewrite Forall_forall in *. intros p Hp. apply H.
  eapply Permutation_in; [apply sorted_perm | exact Hp].
Qed.

(** Of tuples whose scores are numbers, [sorted] returns the one list in
    ascending order. *)
Lemma sorted_order (l : list (num * string)) :
  Forall number_score l -> StronglySorted tuple_order (sorted l).
Proof.
  intros H. apply Sorted_StronglySorted; [exact tuple_order_trans|].
  induction H as [|x l Hx Hl IH]; simpl; [constructor|].
  apply insert_order; [exact Hx | apply sorted_numbers; exact Hl | exact IH].
Qed.

Lemma sorted_order_unique (l1 l2 : list (num * string)) :
  Forall number_score l1 -> Permutation l1 l2 -> sorted l1 = sorted l2.
Proof.
  intros Hf Hp.
  assert (Hf2 : Forall number_score l2).
  { rewrite Forall_forall in *. intros p Hin. apply Hf.
    eapply Permutation_in; [apply Permutation_sym; exact Hp | exact Hin]. }
  apply (StronglySorted_unique tuple_order tuple_order_antisym).
  - apply sorted_order. exact Hf.
  - apply sorted_order. exact Hf2.
  - rewrite (sorted_perm l1), (sorted_perm l2). exact Hp.
Qed.

Lemma sorted_order_scores (l : list (num * string)) :
  Forall number_score l ->
  StronglySorted (fun s t => num_leb s t = true) (map fst (sorted l)).
Proof.
  intros H. pose proof (sorted_order l H) as Hs.
  pose proof (sorted_numbers l H) as Hn.
  induction Hs as [|a l' Hs IH Hall]; simpl; constructor.
  - apply IH. inversion Hn; assumption.
  - inversion Hn as [|? ? Ha Hl']; subst.
    rewrite Forall_forall in *. intros s Hin. apply in_map_iff in Hin.
    destruct Hin as [b [Hb Hin]]. subst s.
    apply tuple_order_scores; [exact Ha | apply Hall; exact Hin].
Qed.

(** ** The ranking in an arbitrary arithmetic *)

Lemma scored_in_known (fl : arithmetic) (D : nat) (E : WordEmbedding) (v : vec)
  (l : list string) :
  wf_table D E -> length v = D -> first_unknown E l = None ->
  scored_in fl E v l = Ok (projections_in fl E v l).
Proof.
  intros Hwf Hlen. unfold first_unknown, projections_in.
  induction l as [|x l IH]; simpl; intros Hf; [reflexivity|].
  destruct (known E x) eqn:Hk; simpl in Hf; [|discriminate].
  destruct (vector_of_known D E x Hwf Hk) as [Hv Hr]. rewrite Hv. simpl.
  unfold np_dot_in. rewrite length_map, Hr, Hlen, Nat.eqb_refl. simpl.
  rewrite (IH Hf). reflexivity.
Qed.

Lemma scored_in_first_unknown (fl : arithmetic) (D : nat) (E : WordEmbedding)
  (v : vec) (l : list string) (w : string) :
  wf_table D E -> length v = D -> first_unknown E l = Some w ->
  scored_in fl E v l = Raise (UnknownWordError w).
Proof.
  intros Hwf Hlen. unfold first_unknown.
  induction l as [|x l IH]; simpl; intros Hf; [discriminate|].
  destruct (known E x) eqn:Hk; simpl in Hf.
  - destruct (vector_of_known D E x Hwf Hk) as [Hv Hr]. rewrite Hv. simpl.
    unfold np_dot_in. rewrite length_map, Hr, Hlen, Nat.eqb_refl. simpl.
    rewrite (IH Hf). reflexivity.
  - inversion Hf; subst. rewrite (vector_of_unknown E w Hk). reflexivity.
Qed.

(** What [sp] returns for a direction of the table's dimension. *)
Lemma sp_in_outcome (fl : arithmetic) (D : nat) (E : WordEmbedding) (v : vec)
  (candidates : list string) :
  wf_table D E -> length v = D ->
  sp_in fl E v candidates
  = match first_unknown E candidates with
    | Some w => Raise (UnknownWordError w)
    | None => Ok (sorted (projections_in fl E v candidates))
    end.
Proof.
  intros Hwf Hlen. unfold sp_in.
  destruct (first_unknown E candidates) as [w|] eqn:Hf.
  - rewrite (scored_in_first_unknown fl D E v candidates w Hwf Hlen Hf). reflexivity.
  - rewrite (scored_in_known fl D E v candidates Hwf Hlen Hf). reflexivity.
Qed.

Lemma projections_in_numbers (fl : arithmetic) (E : WordEmbedding) (v : vec)
  (candidates : list string) :
  (forall w, In w candidates -> is_number (fl_dot fl (map Fin (row E w)) v)) ->
  Forall number_score (projections_in fl E v candidates).
Proof.
  intros H. unfold projections_in. apply Forall_forall. intros p Hp.
  apply in_map_iff in Hp. destruct Hp as [w [Hw Hin]]. subst p.
  unfold number_score. simpl. apply H. exact Hin.
Qed.

Lemma projections_in_words (fl : arithmetic) (E : WordEmbedding) (v : vec)
  (candidates : list string) :
  map snd (projections_in fl E v candidates) = candidates.
Proof.
  unfold projections_in. rewrite map_map. simpl. apply map_id.
Qed.

(** With candidates of the vocabulary whose scores are numbers, [sp]
    returns the ascending list of the candidates' tuples. *)
Lemma sp_in_numbers (fl : arithmetic) (D : nat) (E : WordEmbedding) (v : vec)
  (candidates : list string) :
  wf_table D E -> length v = D -> in_vocabulary E candidates ->
  (forall w, In w candidates -> is_number (fl_dot fl (map Fin (row E w)) v)) ->
  sp_in fl E v candidates = Ok (sorted (projections_in fl E v candidates)) /\
  Forall number_score (projections_in fl E v candidates).
Proof.
  intros Hwf Hlen Hin Hnum. apply first_unknown_none in Hin.
  rewrite (sp_in_outcome fl D E v candidates Hwf Hlen), Hin.
  split; [reflexivity | apply projections_in_numbers; exact Hnum].
Qed.

Lemma in_vocabulary_perm (E : WordEmbedding) (l l' : list string) :
  in_vocabulary E l -> Permutation l l' -> in_vocabulary E l'.
Proof.
  intros H Hp. unfold in_vocabulary in *. rewrite Forall_forall in *.
  intros w Hw. apply H.
  eapply Permutation_in; [apply Permutation_sym; exact Hp | exact Hw].
Qed.

(** ** The group direction in an arbitrary arithmetic *)

Lemma sum_from_in_rows (fl : arithmetic) (E : WordEmbedding) (names : list string) :
  forall rs acc,
    rows_of E names = Some rs ->
    sum_from_in fl E names acc
    = Ok (fold_left (fun a r => broadcast (fl_add fl) a (Arr (map Fin r))) rs acc).
Proof.
  induction names as [|w names IH]; intros rs acc Hrs; simpl in Hrs.
  - inversion Hrs. reflexivity.
  - destruct (position w (words E)) as [i|] eqn:Hp; [|discriminate].
    destruct (rows_of E names) as [rs'|] eqn:Hr; [|discriminate].
    destruct (nth_error (vecs E) i) as [r|] eqn:Hn; [|discriminate].
    inversion Hrs; subst rs. simpl.
    rewrite (vector_of_position E w i r Hp Hn). simpl.
    apply IH. reflexivity.
Qed.

Lemma v_racial_in_rows (fl : arithmetic) (E : WordEmbedding) (g1 g2 : list string)
  (P N : list (list R)) :
  rows_of E g1 = Some P -> rows_of E g2 = Some N ->
  v_racial_in fl E g1 g2 = Ok (from_groups_in fl P N).
Proof.
  intros HP HN. unfold v_racial_in, centroid_diff_in, py_sum_in.
  rewrite (sum_from_in_rows fl E g2 N _ HN), (sum_from_in_rows fl E g1 P _ HP).
  reflexivity.
Qed.

Lemma broadcast_antisym (f : num -> num -> num) (a b : ndarray) :
  (forall x y, f y x = num_neg (f x y)) ->
  broadcast f b a = np_neg (broadcast f a b).
Proof.
  intros Hf. destruct a as [u|x], b as [v|y]; simpl; f_equal.
  - revert v. induction u as [|a u IH]; intros [|b v]; simpl; trivial.
    rewrite IH, Hf. reflexivity.
  - rewrite map_map. apply map_ext. intros a. apply Hf.
  - rewrite map_map. apply map_ext. intros a. apply Hf.
  - apply Hf.
Qed.

Lemma ravel_neg (a : ndarray) : ravel (np_neg a) = map num_neg (ravel a).
Proof. destruct a; reflexivity. Qed.

Lemma normalize_in_neg (fl : arithmetic) (a : ndarray) :
  sign_symmetric fl ->
  normalize_in fl (np_neg a) = np_neg (normalize_in fl a).
Proof.
  intros [_ [Hdiv Hnorm]]. unfold normalize_in. rewrite ravel_neg, Hnorm.
  destruct a as [u|x]; simpl; f_equal.
  - rewrite !map_map. apply map_ext. intros a. apply Hdiv.
  - apply Hdiv.
Qed.

Lemma from_groups_in_antisym (fl : arithmetic) (P N : list (list R)) :
  sign_symmetric fl ->
  from_groups_in fl N P = np_neg (from_groups_in fl P N).
Proof.
  intros Hs. unfold from_groups_in.
  rewrite (broadcast_antisym (fl_sub fl) _ _ (proj1 Hs)).
  apply normalize_in_neg. exact Hs.
Qed.

Lemma np_neg_involutive (a : ndarray) : np_neg (np_neg a) = a.
Proof.
  destruct a as [u|x]; simpl; f_equal.
  - rewrite map_map. rewrite <- (map_id u) at 2. apply map_ext.
    apply num_neg_involutive.
  - apply num_neg_involutive.
Qed.

(** An array compares equal to itself exactly when it holds no nan. *)
Lemma all_equal_refl (a : ndarray) :
  all_equal a a = true <-> Forall is_number (ravel a).
Proof.
  destruct a as [u|x]; simpl.
  - rewrite Nat.eqb_refl. simpl. induction u as [|a u IH]; simpl.
    + split; [constructor | reflexivity].
    + rewrite andb_true_iff, IH. split.
      * intros [Ha Hu]. constructor; [apply num_eqb_number; exact Ha | exact Hu].
      * intros H. inversion H; subst. split; [apply num_eqb_refl|]; assumption.
  - split.
    + intros H. repeat constructor. apply num_eqb_number. exact H.
    + intros H. inversion H; subst. apply num_eqb_refl. assumption.
Qed.

(** ** The exact arithmetic keeps the symmetry of the reals *)

Lemma num_div_neg (a n : num) : num_div (num_neg a) n = num_neg (num_div a n).
Proof. destruct a, n; num_cases. Qed.

Lemma num_mul_neg_neg (a b : num) : num_mul (num_neg a) (num_neg b) = num_mul a b.
Proof. destruct a, b; num_cases. Qed.

Lemma num_mul_neg_r (a b : num) : num_mul a (num_neg b) = num_neg (num_mul a b).
Proof. destruct a, b; num_cases. Qed.

Lemma num_add_neg (a b : num) : num_add (num_neg a) (num_neg b) = num_neg (num_add a b).
Proof. destruct a, b; num_cases. Qed.

Lemma inner_neg_neg (u v : vec) : inner (map num_neg u) (map num_neg v) = inner u v.
Proof.
  revert v. induction u as [|x u IH]; intros [|y v]; simpl; trivial.
  rewrite IH, num_mul_neg_neg. reflexivity.
Qed.

Lemma inner_neg_r (u v : vec) : inner u (map num_neg v) = num_neg (inner u v).
Proof.
  assert (Hz : Fin 0 = num_neg (Fin 0)) by (simpl; f_equal; lra).
  revert v. induction u as [|x u IH]; intros [|y v]; simpl inner; simpl map;
    try exact Hz.
  rewrite IH, num_mul_neg_r, num_add_neg. reflexivity.
Qed.

Lemma exact_sign_symmetric : sign_symmetric exact.
Proof.
  split; [|split]; simpl.
  - intros a b. apply num_sub_antisym.
  - apply num_div_neg.
  - intros v. rewrite inner_neg_neg. reflexivity.
Qed.

Lemma exact_odd_dot : odd_dot exact.
Proof. intros x v. simpl. apply inner_neg_r. Qed.

(** ** The group direction and the specification's wording (C1) *)



(** ** The group direction and the order of the groups (C6) *)

Lemma up_down_wf : wf_table 2 up_down.
Proof.
  unfold wf_table, up_down; simpl. split; [|split].
  - repeat constructor; simpl; intuition discriminate.
  - reflexivity.
  - repeat constructor.
Qed.

(** The two opposite words sum to the zero vector, whose division by its
    norm is nan in every entry; so are the centroid difference against
    [{he}] and the direction, in either order. *)
Lemma up_down_direction :
  centroid_diff up_down ["up"; "down"]%string ["he"%string] = Ok (Arr [NaN; NaN]) /\
  centroid_diff up_down ["he"%string] ["up"; "down"]%string = Ok (Arr [NaN; NaN]) /\
  v_racial up_down ["up"; "down"]%string ["he"%string] = Ok (Arr [NaN; NaN]) /\
  v_racial up_down ["he"%string] ["up"; "down"]%string = Ok (Arr [NaN; NaN]).
Proof.
  assert (Hud : rows_of up_down ["up"; "down"]%string = Some [[0; 1]; [0; -1]])
    by reflexivity.
  assert (Hhe : rows_of up_down ["he"%string] = Some [[1; 0]]) by reflexivity.
  assert (Nud : normalize (group_sum [[0; 1]; [0; -1]]) = Arr [NaN; NaN]).
  { change (group_sum [[0; 1]; [0; -1]]) with (Arr (map Fin [0 + 0; 1 + -1])).
    rewrite normalize_zero by magnitude_is 0. reflexivity. }
  assert (Nhe : normalize (group_sum [[1; 0]]) = Arr [Fin (1 / 1); Fin (0 / 1)]).
  { change (group_sum [[1; 0]]) with (Arr (map Fin [1; 0])).
    rewrite normalize_fin by (rewrite magnitude_he; lra).
    unfold Spec.unit. rewrite magnitude_he. reflexivity. }
  destruct (v_racial_rows up_down _ _ _ _ Hud Hhe) as [C1 V1].
  destruct (v_racial_rows up_down _ _ _ _ Hhe Hud) as [C2 V2].
  unfold direction in V1, V2.
  rewrite Nud, Nhe in C1, C2, V1, V2.
  repeat split; assumption.
Qed.

(** C6, as stated, fails: in a table with two opposite words, [{up, down}]
    and [{he}] are non-empty groups of vocabulary words whose centroid
    differences are not the zero vector (their entries are nan, which is
    not equal to zero, and so is their norm), and the two directions are
    nan in both entries: no entry of the one is equal to the negated entry
    of the other. *)
Lemma from_groups_antisymmetric_counterexample :
  wf_table 2 up_down /\
  in_vocabulary up_down ["up"; "down"]%string /\
  in_vocabulary up_down ["he"%string] /\
  centroid_diff up_down ["up"; "down"]%string ["he"%string] = Ok (Arr [NaN; NaN]) /\
  centroid_diff up_down ["he"%string] ["up"; "down"]%string = Ok (Arr [NaN; NaN]) /\
  any_nonzero (Arr [NaN; NaN]) = true /\
  num_eqb (norm (Arr [NaN; NaN])) (Fin 0) = false /\
  v_racial up_down ["up"; "down"]%string ["he"%string] = Ok (Arr [NaN; NaN]) /\
  v_racial up_down ["he"%string] ["up"; "down"]%string = Ok (Arr [NaN; NaN]) /\
  all_equal (Arr [NaN; NaN]) (np_neg (Arr [NaN; NaN])) = false.
Proof.
  destruct up_down_direction as [C1 [C2 [V1 V2]]].
  split; [exact up_down_wf|].
  split; [repeat constructor; simpl; tauto|].
  split; [repeat constructor; simpl; tauto|].
  repeat split; trivial.
Qed.

(** C6, amended: in every arithmetic whose rounding is symmetric under the
    change of sign, for all groups [G1], [G2] of vocabulary words,
    [v_racial E G2 G1] is the entrywise negation of [v_racial E G1 G2],
    the negation of nan being nan; so [v_racial E G1 G2] compares equal to
    the negation of [v_racial E G2 G1] in every entry exactly when it
    holds no nan. *)
Theorem from_groups_antisymmetric
  (fl : arithmetic) (D : nat) (E : WordEmbedding) (G1 G2 : list string) :
  sign_symmetric fl ->
  wf_table D E ->
  in_vocabulary E G1 -> in_vocabulary E G2 ->
  exists r r' : ndarray,
    v_racial_in fl E G1 G2 = Ok r /\
    v_racial_in fl E G2 G1 = Ok r' /\
    r' = np_neg r /\
    (all_equal r (np_neg r') = true <-> Forall is_number (ravel r)).
Proof.
  intros Hs Hwf V1 V2.
  destruct (vocabulary_rows D E G1 Hwf V1) as [R1 _].
  destruct (vocabulary_rows D E G2 Hwf V2) as [R2 _].
  exists (from_groups_in fl (rows E G1) (rows E G2)),
         (from_groups_in fl (rows E G2) (rows E G1)).
  split; [exact (v_racial_in_rows fl E G1 G2 _ _ R1 R2)|].
  split; [exact (v_racial_in_rows fl E G2 G1 _ _ R2 R1)|].
  split; [apply from_groups_in_antisym; exact Hs|].
  rewrite (from_groups_in_antisym fl (rows E G1) (rows E G2) Hs).
  rewrite np_neg_involutive. apply all_equal_refl.
Qed.

(** The conditions of C6 hold for the exact arithmetic and the groups
    [{she}] and [{he}] of the scenario. *)
Lemma from_groups_antisymmetric_witness :
  exists r r' : ndarray,
    v_racial_in exact scenario ["she"%string] ["he"%string] = Ok r /\
    v_racial_in exact scenario ["he"%string] ["she"%string] = Ok r' /\
    r' = np_neg r /\
    (all_equal r (np_neg r') = true <-> Forall is_number (ravel r)).
Proof.
  apply (from_groups_antisymmetric exact 2 scenario).
  - exact exact_sign_symmetric.
  - exact scenario_wf.
  - apply scenario_vocabulary; reflexivity.
  - apply scenario_vocabulary; reflexivity.
Defined.

(** ** Scaling a group that shares a word with the other (C10) *)





(** ** The ranking is sorted (C4) and ordered by word among ties (C3) *)

(** C4, as stated, fails: the direction that [v_racial] returns for
    [{she}] against itself is nan in both entries; along it the vocabulary
    words king and queen both score nan, and the output is not sorted
    ascending: its first score is not less than or equal to its second. *)
Lemma rank_sorted_counterexample :
  wf_table 2 scenario /\
  in_vocabulary scenario ["king"; "queen"]%string /\
  v_racial scenario ["she"%string] ["she"%string] = Ok (Arr [NaN; NaN]) /\
  sp scenario [NaN; NaN] ["king"; "queen"]%string
  = Ok [(NaN, "king"%string); (NaN, "queen"%string)] /\
  num_leb NaN NaN = false.
Proof.
  split; [exact scenario_wf|].
  split; [apply scenario_vocabulary; reflexivity|].
  split; [apply she_she_direction|].
  split; reflexivity.
Qed.

(** C4, amended: in every arithmetic, for a direction of the table's
    dimension and candidate words that are all in the vocabulary and none
    of which scores nan, [sp] (the specification's [rank_by_projection])
    returns a list that holds, for every candidate, the pair of its
    product with the direction and the candidate itself; the scores are
    non-decreasing from each entry to the next, and the words are a
    permutation of the candidate words. *)
Theorem rank_sorted_permutation
  (fl : arithmetic) (D : nat) (E : WordEmbedding) (v_gender : vec)
  (profession_words : list string) :
  wf_table D E ->
  length v_gender = D ->
  in_vocabulary E profession_words ->
  (forall w, In w profession_words ->
     is_number (fl_dot fl (map Fin (row E w)) v_gender)) ->
  exists out,
    sp_in fl E v_gender profession_words = Ok out /\
    Permutation out (projections_in fl E v_gender profession_words) /\
    Sorted (fun s t => num_leb s t = true) (map fst out) /\
    Permutation (map snd out) profession_words.
Proof.
  intros Hwf Hlen Hin Hnum.
  destruct (sp_in_numbers fl D E v_gender profession_words Hwf Hlen Hin Hnum)
    as [Hsp Hf].
  exists (sorted (projections_in fl E v_gender profession_words)).
  split; [exact Hsp|]. split; [apply sorted_perm|]. split.
  - apply StronglySorted_Sorted. apply sorted_order_scores. exact Hf.
  - rewrite <- (projections_in_words fl E v_gender profession_words) at 2.
    apply Permutation_map. apply sorted_perm.
Qed.

(** The conditions of C4 hold for the exact arithmetic, the scenario, the
    direction [[-1, 1]] and the candidates king, queen. *)
Lemma rank_sorted_permutation_witness :
  exists out,
    sp_in exact scenario [Fin (-1); Fin 1] ["king"; "queen"]%string = Ok out /\
    Permutation out
      (projections_in exact scenario [Fin (-1); Fin 1] ["king"; "queen"]%string) /\
    Sorted (fun s t => num_leb s t = true) (map fst out) /\
    Permutation (map snd out) ["king"; "queen"]%string.
Proof.
  apply (rank_sorted_permutation exact 2 scenario).
  - exact scenario_wf.
  - reflexivity.
  - apply scenario_vocabulary; reflexivity.
  - intros w [Hw|[Hw|[]]]; subst w; exact I.
Defined.

(** C3, amended: under the same conditions the output holds, for every
    candidate, the pair of its product with the direction and the
    candidate itself, and two entries of the output with equal scores
    stand in ascending order of their words (the tuples [(score, word)]
    are compared as wholes), whatever their order in the input. *)
Theorem rank_ties_by_word
  (fl : arithmetic) (D : nat) (E : WordEmbedding) (v_gender : vec)
  (profession_words : list string) :
  wf_table D E ->
  length v_gender = D ->
  in_vocabulary E profession_words ->
  (forall w, In w profession_words ->
     is_number (fl_dot fl (map Fin (row E w)) v_gender)) ->
  exists out,
    sp_in fl E v_gender profession_words = Ok out /\
    Permutation out (projections_in fl E v_gender profession_words) /\
    forall (i j : nat) (p q : num * string),
      (i < j)%nat ->
      nth_error out i = Some p -> nth_error out j = Some q ->
      num_eqb (fst p) (fst q) = true ->
      String.leb (snd p) (snd q) = true.
Proof.
  intros Hwf Hlen Hin Hnum.
  destruct (sp_in_numbers fl D E v_gender profession_words Hwf Hlen Hin Hnum)
    as [Hsp Hf].
  exists (sorted (projections_in fl E v_gender profession_words)).
  split; [exact Hsp|]. split; [apply sorted_perm|].
  intros i j p q Hij Hi Hj Heq.
  apply tuple_order_tie; [|exact Heq].
  exact (StronglySorted_nth tuple_order _ (sorted_order _ Hf) i j p q Hij Hi Hj).
Qed.

(** The conditions of C3 hold for the exact arithmetic, the scenario, the
    direction [[1, 1]] and the candidates she, he. *)
Lemma rank_ties_by_word_witness :
  exists out,
    sp_in exact scenario [Fin 1; Fin 1] ["she"; "he"]%string = Ok out /\
    Permutation out
      (projections_in exact scenario [Fin 1; Fin 1] ["she"; "he"]%string) /\
    forall (i j : nat) (p q : num * string),
      (i < j)%nat ->
      nth_error out i = Some p -> nth_error out j = Some q ->
      num_eqb (fst p) (fst q) = true ->
      String.leb (snd p) (snd q) = true.
Proof.
  apply (rank_ties_by_word exact 2 scenario).
  - exact scenario_wf.
  - reflexivity.
  - apply scenario_vocabulary; reflexivity.
  - intros w [Hw|[Hw|[]]]; subst w; exact I.
Defined.

(** ** Unknown candidates (X5) *)

(** X5: in every arithmetic, with a direction of the table's dimension,
    [sp] fails with [UnknownWordError] for the first candidate the table
    does not know; when the table knows every candidate it returns a
    list that holds, for every candidate, the pair of its product with
    the direction and the candidate itself. *)
Theorem sp_first_unknown
  (fl : arithmetic) (D : nat) (E : WordEmbedding) (v : vec)
  (candidates : list string) :
  wf_table D E -> length v = D ->
  match first_unknown E candidates with
  | Some w => sp_in fl E v candidates = Raise (UnknownWordError w)
  | None =>
      exists out,
        sp_in fl E v candidates = Ok out /\
        Permutation out (projections_in fl E v candidates)
  end.
Proof.
  intros Hwf Hlen. rewrite (sp_in_outcome fl D E v candidates Hwf Hlen).
  destruct (first_unknown E candidates) as [w|]; [reflexivity|].
  eexists. split; [reflexivity | apply sorted_perm].
Qed.

Lemma sp_first_unknown_witness :
  sp_in exact scenario [Fin (-1); Fin 1] ["king"; "prince"; "queen"; "duke"]%string
  = Raise (UnknownWordError "prince").
Proof.
  exact (sp_first_unknown exact 2 scenario [Fin (-1); Fin 1]
           ["king"; "prince"; "queen"; "duke"]%string scenario_wf eq_refl).
Defined.

(** ** The ranking depends on the candidates, not on their order (X7) *)

(** X7: in every arithmetic, the ranking of candidates none of which
    scores nan depends on the candidates only, not on the order in which
    they are given: two lists of such vocabulary words that are
    rearrangements of one another get the same ranking. *)
Theorem sp_order_independent
  (fl : arithmetic) (D : nat) (E : WordEmbedding) (v : vec)
  (candidates candidates' : list string) :
  wf_table D E -> length v = D ->
  in_vocabulary E candidates ->
  (forall w, In w candidates -> is_number (fl_dot fl (map Fin (row E w)) v)) ->
  Permutation candidates candidates' ->
  sp_in fl E v candidates' = sp_in fl E v candidates /\
  exists out, sp_in fl E v candidates = Ok out.
Proof.
  intros Hwf Hlen Hin Hnum Hp.
  pose proof (in_vocabulary_perm E _ _ Hin Hp) as Hin'.
  apply first_unknown_none in Hin. apply first_unknown_none in Hin'.
  rewrite (sp_in_outcome fl D E v candidates Hwf Hlen), Hin.
  rewrite (sp_in_outcome fl D E v candidates' Hwf Hlen), Hin'.
  split; [|eexists; reflexivity].
  f_equal. apply sorted_order_unique.
  - apply projections_in_numbers. intros w Hw. apply Hnum.
    eapply Permutation_in; [apply Permutation_sym; exact Hp | exact Hw].
  - unfold projections_in. apply Permutation_map. apply Permutation_sym. exact Hp.
Qed.

Lemma sp_order_independent_witness :
  sp_in exact scenario [Fin 1; Fin 1] ["he"; "queen"; "she"; "king"]%string
  = sp_in exact scenario [Fin 1; Fin 1] ["queen"; "she"; "king"; "he"]%string /\
  exists out,
    sp_in exact scenario [Fin 1; Fin 1] ["queen"; "she"; "king"; "he"]%string = Ok out.
Proof.
  apply (sp_order_independent exact 2 scenario).
  - exact scenario_wf.
  - reflexivity.
  - apply scenario_vocabulary; reflexivity.
  - intros w [Hw|[Hw|[Hw|[Hw|[]]]]]; subst w; exact I.
  - apply Permutation_sym.
    apply Permutation_cons_append with (l := ["queen"; "she"; "king"]%string)
                                       (x := "he"%string).
Defined.

(** ** The poles of a ranking (X9) *)

Lemma split_order_scores (l : list (num * string)) (n : nat) :
  Forall number_score l -> StronglySorted tuple_order l ->
  forall p q, In p (firstn n l) -> In q (skipn n l) ->
    num_leb (fst p) (fst q) = true.
Proof.
  intros Hnum Hs p q Hp Hq. apply tuple_order_scores.
  - rewrite Forall_forall in Hnum. apply Hnum.
    rewrite <- (firstn_skipn n l). apply in_or_app. left. exact Hp.
  - rewrite <- (firstn_skipn n l) in Hs.
    exact (StronglySorted_app_le tuple_order _ _ Hs p q Hp Hq).
Qed.

(** X9: in every arithmetic, of a ranking of vocabulary words none of
    which scores nan, [sp[0:20]] holds the lowest scores and [sp[-20:]]
    the highest: no score in the first slice is above a score of an entry
    after it, no score in the last slice is below a score of an entry
    before it.  Each slice has twenty entries, or all of them when there
    are fewer than twenty candidates, and then the two slices are the
    whole ranking. *)
Theorem poles_extreme
  (fl : arithmetic) (D : nat) (E : WordEmbedding) (v : vec)
  (candidates : list string) :
  wf_table D E -> length v = D ->
  in_vocabulary E candidates ->
  (forall w, In w candidates -> is_number (fl_dot fl (map Fin (row E w)) v)) ->
  exists ranking,
    sp_in fl E v candidates = Ok ranking /\
    length (fst (poles ranking)) = Nat.min 20 (length candidates) /\
    length (snd (poles ranking)) = Nat.min 20 (length candidates) /\
    (forall p q, In p (fst (poles ranking)) -> In q (skipn 20 ranking) ->
       num_leb (fst p) (fst q) = true) /\
    (forall p q, In p (firstn (length ranking - 20) ranking) ->
       In q (snd (poles ranking)) ->
       num_leb (fst p) (fst q) = true) /\
    ((length candidates <= 20)%nat ->
       fst (poles ranking) = ranking /\ snd (poles ranking) = ranking).
Proof.
  intros Hwf Hlen Hin Hnum.
  destruct (sp_in_numbers fl D E v candidates Hwf Hlen Hin Hnum) as [Hsp Hf].
  set (l := projections_in fl E v candidates) in *.
  exists (sorted l). split; [exact Hsp|].
  pose proof (sorted_order l Hf) as Hs.
  pose proof (sorted_numbers l Hf) as Hn'.
  assert (Hn : length (sorted l) = length candidates).
  { rewrite (Permutation_length (sorted_perm l)). unfold l, projections_in.
    apply length_map. }
  unfold poles, slice_first, slice_last. cbn [fst snd].
  split; [rewrite length_firstn, Hn; reflexivity|].
  split; [rewrite length_skipn, Hn; lia|].
  split; [apply split_order_scores; assumption|].
  split; [apply split_order_scores; assumption|].
  intros Hle. split.
  - apply firstn_all2. lia.
  - replace (length (sorted l) - 20)%nat with O by lia. reflexivity.
Qed.

Lemma poles_extreme_witness :
  exists ranking,
    sp_in exact scenario [Fin (-1); Fin 1] ["king"; "queen"; "he"; "she"]%string
    = Ok ranking /\
    length (fst (poles ranking))
    = Nat.min 20 (length ["king"; "queen"; "he"; "she"]%string) /\
    length (snd (poles ranking))
    = Nat.min 20 (length ["king"; "queen"; "he"; "she"]%string) /\
    (forall p q, In p (fst (poles ranking)) -> In q (skipn 20 ranking) ->
       num_leb (fst p) (fst q) = true) /\
    (forall p q, In p (firstn (length ranking - 20) ranking) ->
       In q (snd (poles ranking)) ->
       num_leb (fst p) (fst q) = true) /\
    ((length ["king"; "queen"; "he"; "she"]%string <= 20)%nat ->
       fst (poles ranking) = ranking /\ snd (poles ranking) = ranking).
Proof.
  apply (poles_extreme exact 2 scenario).
  - exact scenario_wf.
  - reflexivity.
  - apply scenario_vocabulary; reflexivity.
  - intros w [Hw|[Hw|[Hw|[Hw|[]]]]]; subst w; exact I.
Defined.

(** ** Ranking along the opposite direction (X15) *)

Lemma projections_in_neg (fl : arithmetic) (E : WordEmbedding) (v : vec)
  (l : list string) :
  odd_dot fl ->
  map fst (projections_in fl E (map num_neg v) l)
  = map num_neg (map fst (projections_in fl E v l)).
Proof.
  intros Hodd. unfold projections_in.
  induction l as [|w l IH]; [reflexivity|].
  cbn [map fst]. rewrite IH, Hodd. reflexivity.
Qed.

(** X15: in every arithmetic in which the product with the negated
    direction is the negated product, ranking vocabulary words none of
    which scores nan along the opposite direction gives the scores of the
    first ranking, negated, in reverse order. *)
Theorem sp_opposite_direction
  (fl : arithmetic) (D : nat) (E : WordEmbedding) (v : vec)
  (candidates : list string) :
  odd_dot fl ->
  wf_table D E -> length v = D ->
  in_vocabulary E candidates ->
  (forall w, In w candidates -> is_number (fl_dot fl (map Fin (row E w)) v)) ->
  exists ranking ranking',
    sp_in fl E v candidates = Ok ranking /\
    sp_in fl E (map num_neg v) candidates = Ok ranking' /\
    map fst ranking' = rev (map num_neg (map fst ranking)).
Proof.
  intros Hodd Hwf Hlen Hin Hnum.
  assert (Hnum' : forall w, In w candidates ->
            is_number (fl_dot fl (map Fin (row E w)) (map num_neg v))).
  { intros w Hw. rewrite Hodd. apply num_neg_number. apply Hnum. exact Hw. }
  destruct (sp_in_numbers fl D E v candidates Hwf Hlen Hin Hnum) as [Hsp HP].
  destruct (sp_in_numbers fl D E (map num_neg v) candidates Hwf) as [Hsp' HP'];
    [rewrite length_map; exact Hlen | exact Hin | exact Hnum' |].
  set (P := projections_in fl E v candidates) in *.
  set (P' := projections_in fl E (map num_neg v) candidates) in *.
  exists (sorted P), (sorted P').
  split; [exact Hsp|]. split; [exact Hsp'|].
  apply (StronglySorted_unique (fun a b => num_leb a b = true) num_leb_antisym).
  - apply sorted_order_scores. exact HP'.
  - rewrite <- map_rev.
    apply (StronglySorted_map (fun a b => num_leb b a = true)).
    + intros a b Hab. rewrite num_leb_neg. exact Hab.
    + apply StronglySorted_rev. apply sorted_order_scores. exact HP.
  - rewrite <- Permutation_rev.
    rewrite (Permutation_map fst (sorted_perm P')).
    rewrite (Permutation_map fst (sorted_perm P)).
    unfold P, P'. rewrite (projections_in_neg fl E v candidates Hodd). reflexivity.
Qed.

Lemma sp_opposite_direction_witness :
  exists ranking ranking',
    sp_in exact scenario [Fin (-1); Fin 1] ["king"; "queen"]%string = Ok ranking /\
    sp_in exact scenario (map num_neg [Fin (-1); Fin 1]) ["king"; "queen"]%string
    = Ok ranking' /\
    map fst ranking' = rev (map num_neg (map fst ranking)).
Proof.
  apply (sp_opposite_direction exact 2 scenario).
  - exact exact_odd_dot.
  - exact scenario_wf.
  - reflexivity.
  - apply scenario_vocabulary; reflexivity.
  - intros w [Hw|[Hw|[]]]; subst w; exact I.
Defined.
